(** * Bellman-Ford shortest paths with negative-cycle detection

    A shallow embedding of [bellmanFord] from [src/bellman_ford.cc] and the
    properties the specification states about it.

    Conventions of the embedding:
    - a C++ [int] is a [Z]; the one arithmetic operation of the function,
      [dist[u] + w], is 32-bit two's complement addition ([add32]), the
      overflow behaviour the specification's design notes describe;
    - [vector<int>& dist] is the [dist] field of the machine state, read and
      written by index; an index outside the vector is undefined behaviour in
      C++: the model marks the access with the fault [out_of_bounds] and
      follows the run no further, which says nothing of what a compiled
      program does after it;
    - [dist.assign(V, INF)] with a negative [V] asks for more than
      [max_size()] elements and throws ([std::length_error] in the current
      standard libraries);
    - allocation is taken to succeed;
    - the machine state carries a ghost trace (a relaxation round begins, the
      verification pass begins, a loop body runs on an edge) which the code
      itself does not have; it only observes the loops. *)

From Stdlib Require Import ZArith List Lia Bool String Ascii DecimalString.
From stdpp Require Import base numbers list.

Local Open Scope Z_scope.

(** ** Data *)

(** [tuple<int, int, int>]: an edge (u, v, w) from [u] to [v] of weight [w]. *)
Definition edge : Type := Z * Z * Z.

(** [const int INF = 1e9;] *)
Definition INF : Z := 1000000000.

Definition INT_MIN : Z := -2147483648.
Definition INT_MAX : Z := 2147483647.

(** The value of a mathematical integer once stored in a 32-bit [int]. *)
Definition wrap32 (z : Z) : Z := (z + 2147483648) `mod` 4294967296 - 2147483648.

(** [a + b] on [int]. *)
Definition add32 (a b : Z) : Z := wrap32 (a + b).

(** ** Machine state, faults and the monad of the embedding *)

Inductive fault : Type :=
| length_error   (* std::length_error thrown by vector::assign *)
| out_of_bounds. (* operator[] outside the vector: undefined behaviour *)

Inductive event : Type :=
| round_begin       (* a relaxation round starts its pass over the edges *)
| check_begin       (* the verification pass starts over the edges *)
| visit (e : edge). (* a loop body runs on the edge [e] *)

Record machine : Type := Machine {
  dist : list Z;      (* the caller's vector *)
  trace : list event  (* ghost: what the loops did so far, oldest first *)
}.

Inductive outcome (A : Type) : Type :=
| Done (a : A) (m : machine)
| Fault (f : fault) (m : machine).

Arguments Done {A} a m.
Arguments Fault {A} f m.

Definition M (A : Type) : Type := machine -> outcome A.

Definition ret {A} (a : A) : M A := fun m => Done a m.

Definition bind {A B} (c : M A) (k : A -> M B) : M B :=
  fun m => match c m with
           | Done a m' => k a m'
           | Fault f m' => Fault f m'
           end.

Notation "x <- c ;; k" := (bind c (fun x => k))
  (at level 100, c at next level, right associativity).
Notation "c ;; k" := (bind c (fun _ => k))
  (at level 100, right associativity).

Definition raise {A} (f : fault) : M A := fun m => Fault f m.

(** What the caller gets back: the flag and the vector, if the call returns. *)
Definition returned (o : outcome bool) : option (bool * list Z) :=
  match o with
  | Done b m => Some (b, dist m)
  | Fault _ _ => None
  end.

(** ** The vector *)

(** [d[i]] for an [int] index: a negative index converts to a huge
    [size_t], so only [0 <= i < d.size()] names an element. *)
Definition index (d : list Z) (i : Z) : option Z :=
  if decide (0 <= i) then d !! Z.to_nat i else None.

Definition set_dist (d : list Z) (m : machine) : machine :=
  Machine d (trace m).

(** [dist.assign(n, x)]: the old contents are dropped. *)
Definition vec_assign (n x : Z) : M unit := fun m =>
  if decide (n < 0) then raise length_error m
  else Done tt (set_dist (replicate (Z.to_nat n) x) m).

(** an rvalue use of [dist[i]] *)
Definition vec_get (i : Z) : M Z := fun m =>
  match index (dist m) i with
  | Some x => Done x m
  | None => raise out_of_bounds m
  end.

(** [dist[i] = x] *)
Definition vec_set (i x : Z) : M unit := fun m =>
  match index (dist m) i with
  | Some _ => Done tt (set_dist (<[Z.to_nat i := x]> (dist m)) m)
  | None => raise out_of_bounds m
  end.

(** ** The ghost trace *)

Definition emit (ev : event) : M unit := fun m =>
  Done tt (Machine (dist m) (trace m ++ [ev])).

Fixpoint rounds (t : list event) : nat :=
  match t with
  | [] => O
  | round_begin :: t' => S (rounds t')
  | _ :: t' => rounds t'
  end.

Fixpoint checks (t : list event) : nat :=
  match t with
  | [] => O
  | check_begin :: t' => S (checks t')
  | _ :: t' => checks t'
  end.

Fixpoint visits (t : list event) : nat :=
  match t with
  | [] => O
  | visit _ :: t' => S (visits t')
  | _ :: t' => visits t'
  end.

(** ** The algorithm *)

(** The condition of both [if]s:
    [dist[u] != INF && dist[u] + w < dist[v]], with the short circuit. *)
Definition improves (e : edge) : M bool :=
  let '(u, v, w) := e in
  du <- vec_get u ;;
  if du =? INF then ret false
  else (du' <- vec_get u ;; dv <- vec_get v ;; ret (add32 du' w <? dv)).

(** The body of the inner loop of the relaxation rounds (lines 32-36). *)
Definition relax (e : edge) : M unit :=
  let '(u, v, w) := e in
  emit (visit e) ;;
  b <- improves e ;;
  if b : bool then (du <- vec_get u ;; vec_set v (add32 du w)) else ret tt.

(** [for (const auto& edge : edges) body] *)
Fixpoint for_each (es : list edge) (body : edge -> M unit) : M unit :=
  match es with
  | [] => ret tt
  | e :: es' => body e ;; for_each es' body
  end.

(** A counted loop whose body does not read the loop variable. *)
Fixpoint repeat_loop (n : nat) (body : M unit) : M unit :=
  match n with
  | O => ret tt
  | S n' => body ;; repeat_loop n' body
  end.

(** The verification loop (lines 40-48), with its early [return true]. *)
Fixpoint verify (es : list edge) : M bool :=
  match es with
  | [] => ret false
  | e :: es' =>
      emit (visit e) ;;
      b <- improves e ;;
      if b : bool then ret true else verify es'
  end.

(** [for (int i = 1; i <= V - 1; ++i)] runs its body [max(0, V - 1)] times. *)
Definition bellmanFord (V : Z) (edges : list edge) (source : Z) : M bool :=
  vec_assign V INF ;;
  vec_set source 0 ;;
  repeat_loop (Z.to_nat (V - 1)) (emit round_begin ;; for_each edges relax) ;;
  emit check_begin ;;
  verify edges.

(** A call with the caller's vector holding [d]. *)
Definition call (d : list Z) : machine := Machine d [].

(** ** The tests of [testBellmanFord] *)

Definition edges_test1 : list edge :=
  [(0, 1, -1); (0, 2, 4); (1, 2, 3); (1, 3, 2); (1, 4, 2);
   (3, 2, 5); (3, 1, 1); (4, 3, -3)].
Definition edges_test2 : list edge := [(0, 1, -1); (1, 2, -2); (2, 0, -3)].
Definition edges_test3 : list edge := [(0, 1, 1); (2, 3, 1)].
Definition edges_test4 : list edge := [(0, 1, 1); (1, 2, 1); (2, 0, 1)].
Definition edges_test5 : list edge := [(0, 1, 0); (1, 2, 0); (2, 0, 0)].
Definition edges_test6 : list edge :=
  [(0, 1, 1); (0, 2, 2); (1, 3, 3); (2, 4, 4);
   (3, 5, 5); (4, 6, 6); (5, 6, -1); (6, 3, -2)].

(** ** Valid inputs *)

Definition endpoints_ok (V : Z) (e : edge) : bool :=
  let '(u, v, _) := e in (0 <=? u) && (u <? V) && (0 <=? v) && (v <? V).

(** V > 0, source in [0, V), all edge endpoints in [0, V). *)
Definition valid_input (V : Z) (edges : list edge) (source : Z) : bool :=
  (0 <? V) && (0 <=? source) && (source <? V) && forallb (endpoints_ok V) edges.

(** ** The loops as functions on the distance vector

    What the loops do to [dist] when no index is out of range; the [_run]
    lemmas below show that the program computes exactly these. *)

Definition improving (d : list Z) (e : edge) : bool :=
  let '(u, v, w) := e in
  match index d u, index d v with
  | Some du, Some dv => negb (du =? INF) && (add32 du w <? dv)
  | _, _ => false
  end.

Definition relax_edge (d : list Z) (e : edge) : list Z :=
  let '(u, v, w) := e in
  match index d u with
  | Some du => if improving d e then <[Z.to_nat v := add32 du w]> d else d
  | None => d
  end.

Definition relax_pass (es : list edge) (d : list Z) : list Z :=
  fold_left relax_edge es d.

Fixpoint relax_rounds (n : nat) (es : list edge) (d : list Z) : list Z :=
  match n with
  | O => d
  | S n' => relax_rounds n' es (relax_pass es d)
  end.

(** The vector after lines 27-28. *)
Definition init_dist (V source : Z) : list Z :=
  <[Z.to_nat source := 0]> (replicate (Z.to_nat V) INF).

(** The vector when the verification pass starts. *)
Definition final_dist (V : Z) (edges : list edge) (source : Z) : list Z :=
  relax_rounds (Z.to_nat (V - 1)) edges (init_dist V source).

(** Edges the verification pass examines: up to and including the first
    improving one. *)
Fixpoint examined (d : list Z) (es : list edge) : nat :=
  match es with
  | [] => O
  | e :: es' => if improving d e then 1%nat else S (examined d es')
  end.

(** The trace of [n] relaxation rounds. *)
Fixpoint rounds_trace (n : nat) (es : list edge) : list event :=
  match n with
  | O => []
  | S n' => (round_begin :: map visit es) ++ rounds_trace n' es
  end.

(** The trace of the verification pass on the vector [d]. *)
Definition check_trace (d : list Z) (es : list edge) : list event :=
  check_begin :: map visit (firstn (examined d es) es).

Definition in_vec (d : list Z) (i : Z) : Prop := 0 <= i < Z.of_nat (length d).

Definition edges_in (d : list Z) (es : list edge) : Prop :=
  forall u v w, In (u, v, w) es -> in_vec d u /\ in_vec d v.

(** ** Walks in the graph of an edge list

    A walk is kept as the stack of its edges, the last edge on top. *)

Inductive walk (edges : list edge) (a : Z) : list edge -> Z -> Prop :=
| walk_nil : walk edges a [] a
| walk_snoc p u v w :
    walk edges a p u -> In (u, v, w) edges -> walk edges a ((u, v, w) :: p) v.

Fixpoint weight (p : list edge) : Z :=
  match p with
  | [] => 0
  | (_, _, w) :: p' => w + weight p'
  end.

(** The vertices a walk enters, last first. *)
Fixpoint ends (p : list edge) : list Z :=
  match p with
  | [] => []
  | (_, v, _) :: p' => v :: ends p'
  end.

(** All vertices of a walk that starts at [a], last first. *)
Definition vertices (a : Z) (p : list edge) : list Z := ends p ++ [a].

Definition reachable (edges : list edge) (a b : Z) : Prop :=
  exists p, walk edges a p b.

(** A simple cycle through [x] whose weights sum to less than zero. *)
Definition negative_cycle_at (edges : list edge) (x : Z) (c : list edge) : Prop :=
  walk edges x c x /\ List.NoDup (ends c) /\ weight c < 0.

(** A negative-weight cycle reachable from [s]. *)
Definition negative_cycle (edges : list edge) (s : Z) : Prop :=
  exists x c, reachable edges s x /\ negative_cycle_at edges x c.

(** ** Invariants of the relaxation rounds *)

(** Only vertices reachable from the source hold a value other than the
    sentinel; this needs no assumption on the weights. *)
Definition finite_reachable (edges : list edge) (source : Z)
    (d : list Z) : Prop :=
  forall x dx, index d x = Some dx -> dx <> INF -> reachable edges source x.

(** After at most [n] relaxations every entry is the sentinel or the weight
    of a walk of at most [n] edges from the source. *)
Definition sound (V : Z) (edges : list edge) (source : Z) (n : nat)
    (d : list Z) : Prop :=
  length d = Z.to_nat V /\
  forall x dx, index d x = Some dx ->
    dx = INF \/
    (dx < INF /\ exists p, walk edges source p x /\ weight p = dx /\
                           (length p <= n)%nat).

(** Every walk of at most [k] edges from the source is accounted for. *)
Definition complete (edges : list edge) (source : Z) (k : nat)
    (d : list Z) : Prop :=
  forall p x, walk edges source p x -> (length p <= k)%nat ->
    exists dx, index d x = Some dx /\ dx <= weight p.

(** ** Bounds on the weights *)

Fixpoint max_abs_weight (edges : list edge) : Z :=
  match edges with
  | [] => 0
  | (_, _, w) :: es => Z.max (Z.abs w) (max_abs_weight es)
  end.

(** No path of fewer than V edges weighs as much as the sentinel. *)
Definition below_sentinel (V : Z) (edges : list edge) : bool :=
  max_abs_weight edges * V <? INF.

(** No sum of the weights met in (V - 1) * E relaxations and one more edge
    leaves the range of [int]. *)
Definition no_underflow (V : Z) (edges : list edge) : bool :=
  max_abs_weight edges * ((V - 1) * Z.of_nat (length edges) + 1) <=? 2147483648.

Definition small_weights (V : Z) (edges : list edge) : bool :=
  below_sentinel V edges && no_underflow V edges.

(** ** Edges at a vertex *)

Definition touches (x : Z) (e : edge) : bool :=
  let '(u, v, _) := e in (u =? x) || (v =? x).

(** The edge list without the edges that leave or enter [x]. *)
Definition without (x : Z) (es : list edge) : list edge :=
  List.filter (fun e => negb (touches x e)) es.

(** An exception reaches the caller. *)
Definition thrown {A} (o : outcome A) : bool :=
  match o with
  | Fault length_error _ => true
  | _ => false
  end.

(** ** Inputs used below *)

(** A path whose weight equals the sentinel, then a negative self-loop. *)
Definition edges_heavy_edge : list edge := [(0, 1, 1000000000); (1, 1, -1)].
Definition edges_heavy_path : list edge :=
  [(0, 1, 500000000); (1, 2, 500000000); (2, 2, -5)].
Definition edges_self_loop : list edge := [(0, 1, 1); (1, 1, -1)].
(** Two edges whose weights sum to less than [INT_MIN]. *)
Definition edges_underflow : list edge :=
  [(0, 1, -2000000000); (1, 2, -2000000000)].

(** ** Edges whose head may lie outside the vector *)

(** The edge can be examined on [d] without leaving the vector: its tail is
    inside, and its head is inside or the tail is at the sentinel. *)
Definition harmless (d : list Z) (e : edge) : Prop :=
  let '(u, v, _) := e in in_vec d u /\ (in_vec d v \/ index d u = Some INF).

(** ** The callers of [bellmanFord]: assertions and output

    [cout] is the string written so far; a failed [assert] aborts the
    program; a fault of the called code ends it too. *)

Inductive io_result (A : Type) : Type :=
| Finished (a : A) (out : string)
| Aborted (out : string)
| Crashed (f : fault) (out : string).

Arguments Finished {A} a out.
Arguments Aborted {A} out.
Arguments Crashed {A} f out.

Definition IO (A : Type) : Type := string -> io_result A.

Definition io_ret {A} (a : A) : IO A := fun out => Finished a out.

Definition io_bind {A B} (c : IO A) (k : A -> IO B) : IO B :=
  fun out => match c out with
             | Finished a out' => k a out'
             | Aborted out' => Aborted out'
             | Crashed f out' => Crashed f out'
             end.

Declare Scope io_scope.
Delimit Scope io_scope with io.
Notation "x <- c ;; k" := (io_bind c (fun x => k))
  (at level 100, c at next level, right associativity) : io_scope.
Notation "c ;; k" := (io_bind c (fun _ => k))
  (at level 100, right associativity) : io_scope.

(** [cout << s] *)
Definition print (s : string) : IO unit := fun out => Finished tt (out ++ s)%string.

(** [endl] *)
Definition endl : string := String (ascii_of_nat 10) EmptyString.

(** [cout << n] for an [int]: decimal, with a minus sign when negative. *)
Definition show_int (n : Z) : string := NilZero.string_of_int (Z.to_int n).

(** [assert(b)] *)
Definition assert (b : bool) : IO unit :=
  fun out => if b then Finished tt out else Aborted out.

(** [a == b] on [vector<int>] *)
Fixpoint vec_eqb (a b : list Z) : bool :=
  match a, b with
  | [], [] => true
  | x :: a', y :: b' => (x =? y) && vec_eqb a' b'
  | _, _ => false
  end.

(** [vector<int> dist; bool negative_cycle = bellmanFord(V, edges, source, dist);] *)
Definition call_bellmanFord (V : Z) (edges : list edge) (source : Z)
    : IO (bool * list Z) :=
  fun out => match bellmanFord V edges source (call []) with
             | Done b m => Finished (b, dist m) out
             | Fault f _ => Crashed f out
             end.

(** an rvalue use of [dist[i]] in a caller *)
Definition vec_at (d : list Z) (i : Z) : IO Z :=
  fun out => match index d i with
             | Some x => Finished x out
             | None => Crashed out_of_bounds out
             end.

Definition testBellmanFord : IO unit :=
  ( (* case 1: basic test with no negative cycle *)
    r <- call_bellmanFord 5 edges_test1 0 ;;
    assert (negb (fst r)) ;;
    assert (vec_eqb (snd r) [0; -1; 2; -2; 1]) ;;
    (* case 2: a negative cycle *)
    r <- call_bellmanFord 3 edges_test2 0 ;;
    assert (fst r) ;;
    (* case 3: disconnected components *)
    r <- call_bellmanFord 4 edges_test3 0 ;;
    assert (negb (fst r)) ;;
    assert (vec_eqb (snd r) [0; 1; INF; INF]) ;;
    (* case 4: simple cycle with positive weights *)
    r <- call_bellmanFord 3 edges_test4 0 ;;
    assert (negb (fst r)) ;;
    assert (vec_eqb (snd r) [0; 1; 2]) ;;
    (* case 5: cycle with zero weights *)
    r <- call_bellmanFord 3 edges_test5 0 ;;
    assert (negb (fst r)) ;;
    assert (vec_eqb (snd r) [0; 0; 0]) ;;
    (* case 6: negative weights, but no negative cycle *)
    r <- call_bellmanFord 7 edges_test6 0 ;;
    assert (negb (fst r)) ;;
    assert (vec_eqb (snd r) [0; 1; 2; 4; 6; 9; 8]) )%io.

(** The loop of lines 153-160, [n] iterations from [i] on. *)
Fixpoint print_vertices (n : nat) (i : Z) (dist : list Z) : IO unit :=
  match n with
  | O => io_ret tt
  | S n' =>
      ( print "Vertex " ;; print (show_int i) ;; print ": " ;;
        x <- vec_at dist i ;;
        (if x =? INF then (print "INF" ;; print endl)
         else (y <- vec_at dist i ;; print (show_int y) ;; print endl)) ;;
        print_vertices n' (i + 1) dist )%io
  end.

(** Lines 149-161: what is printed for a flag and a vector. *)
Definition report (negative_cycle : bool) (V source : Z) (dist : list Z) : IO unit :=
  ( if negative_cycle then (print "Negative cycle detected!" ;; print endl)
    else ( print "Shortest distances from source " ;; print (show_int source) ;;
           print ":" ;; print endl ;;
           print_vertices (Z.to_nat V) 0 dist ) )%io.

(** The body of [runBellmanFordSample] for given values of its locals [V],
    [edges] and [source]. *)
Definition sample (V : Z) (edges : list edge) (source : Z) : IO unit :=
  ( r <- call_bellmanFord V edges source ;;
    report (fst r) V source (snd r) )%io.

Definition runBellmanFordSample : IO unit := sample 5 edges_test1 0.

Definition main : IO Z :=
  ( testBellmanFord ;; runBellmanFordSample ;; io_ret 0 )%io.

(** The line printed for vertex [i] at distance [x]. *)
Definition vertex_line (i x : Z) : string :=
  ("Vertex " ++ show_int i ++ ": "
   ++ (if (x =? INF)%Z then "INF" else show_int x) ++ endl)%string.

(** The lines printed for the vector [d], whose first entry is vertex [i]. *)
Fixpoint vertex_lines (i : Z) (d : list Z) : string :=
  match d with
  | [] => EmptyString
  | x :: d' => (vertex_line i x ++ vertex_lines (i + 1) d')%string
  end.

(** ** More inputs used below *)

Definition edges_bad_head : list edge := [(0, 1, 1); (2, 7, 1)].
Definition edges_bad_tail : list edge := [(0, 1, 1); (5, 0, 1)].
Definition edges_source_out : list edge := [(1, 0, 1); (0, 9, 1)].
Definition edges_test4_shuffled : list edge :=
  [(2, 0, 1); (0, 1, 1); (1, 2, 1); (0, 1, 1)].

(** ** Basic facts on the vector *)

Lemma index_in_vec d i : in_vec d i -> exists x, index d i = Some x.
Proof.
  intros [H0 H1]. unfold index. destruct (decide (0 <= i)); [|lia].
  destruct (lookup_lt_is_Some_2 d (Z.to_nat i)) as [x Hx]; [lia|]. eauto.
Qed.

Lemma index_Some d i x : index d i = Some x -> in_vec d i.
Proof.
  unfold index, in_vec. destruct (decide (0 <= i)); [|discriminate].
  intros H. apply lookup_lt_Some in H. lia.
Qed.

Lemma index_insert_eq d i x : in_vec d i -> index (<[Z.to_nat i := x]> d) i = Some x.
Proof.
  intros [H0 H1]. unfold index. destruct (decide (0 <= i)); [|lia].
  apply list_lookup_insert_eq. lia.
Qed.

Lemma index_insert_ne d i j x :
  0 <= i -> i <> j -> index (<[Z.to_nat i := x]> d) j = index d j.
Proof.
  intros H0 Hne. unfold index. destruct (decide (0 <= j)); [|reflexivity].
  apply list_lookup_insert_ne. lia.
Qed.

Lemma in_vec_insert d k x i : in_vec (<[k := x]> d) i <-> in_vec d i.
Proof. unfold in_vec. rewrite length_insert. reflexivity. Qed.

Lemma length_relax_edge d e : length (relax_edge d e) = length d.
Proof.
  destruct e as [[u v] w]. unfold relax_edge.
  destruct (index d u); [|reflexivity].
  destruct (improving d (u, v, w)); [apply length_insert|reflexivity].
Qed.

Lemma length_relax_pass es d : length (relax_pass es d) = length d.
Proof.
  revert d. induction es as [|e es IH]; intros d; simpl; [reflexivity|].
  unfold relax_pass in *. simpl. rewrite IH. apply length_relax_edge.
Qed.

Lemma length_relax_rounds n es d : length (relax_rounds n es d) = length d.
Proof.
  revert d. induction n as [|n IH]; intros d; simpl; [reflexivity|].
  rewrite IH. apply length_relax_pass.
Qed.

Lemma length_init_dist V source : length (init_dist V source) = Z.to_nat V.
Proof. unfold init_dist. rewrite length_insert. apply length_replicate. Qed.

Lemma length_final_dist V edges source :
  length (final_dist V edges source) = Z.to_nat V.
Proof. unfold final_dist. rewrite length_relax_rounds. apply length_init_dist. Qed.

Lemma valid_input_spec V edges source :
  valid_input V edges source = true <->
  0 < V /\ 0 <= source < V /\
  (forall u v w, In (u, v, w) edges -> 0 <= u < V /\ 0 <= v < V).
Proof.
  unfold valid_input. rewrite !andb_true_iff, forallb_forall.
  rewrite Z.ltb_lt, Z.leb_le, Z.ltb_lt. split.
  - intros [[[HV H0] H1] He]. repeat split; try lia;
      specialize (He _ H); unfold endpoints_ok in He;
      rewrite !andb_true_iff, !Z.leb_le, !Z.ltb_lt in He; lia.
  - intros (HV & Hs & He). repeat split; try lia.
    intros [[u v] w] Hin. specialize (He _ _ _ Hin). unfold endpoints_ok.
    rewrite !andb_true_iff, !Z.leb_le, !Z.ltb_lt. lia.
Qed.

(** ** The program computes the functions above *)

Lemma improves_run m u v w :
  in_vec (dist m) u -> in_vec (dist m) v ->
  improves (u, v, w) m = Done (improving (dist m) (u, v, w)) m.
Proof.
  intros Hu Hv.
  destruct (index_in_vec _ _ Hu) as [du Hdu].
  destruct (index_in_vec _ _ Hv) as [dv Hdv].
  unfold improves, improving, bind, vec_get, ret. rewrite Hdu, Hdv.
  destruct (du =? INF); simpl; [reflexivity|]. rewrite Hdu, Hdv. reflexivity.
Qed.

Lemma relax_run m e :
  edges_in (dist m) [e] ->
  relax e m = Done tt (Machine (relax_edge (dist m) e) (trace m ++ [visit e])).
Proof.
  destruct e as [[u v] w]. intros He.
  destruct (He u v w (or_introl eq_refl)) as [Hu Hv].
  destruct (index_in_vec _ _ Hu) as [du Hdu].
  destruct (index_in_vec _ _ Hv) as [dv Hdv].
  unfold relax. unfold bind at 1. unfold emit.
  unfold bind at 1. rewrite improves_run by assumption.
  unfold relax_edge. cbn [dist]. rewrite Hdu.
  destruct (improving (dist m) (u, v, w)).
  - unfold bind, vec_get, vec_set. cbn [dist]. rewrite Hdu. cbn [dist].
    rewrite Hdv. reflexivity.
  - reflexivity.
Qed.

Lemma edges_in_cons d e es :
  edges_in d (e :: es) <-> edges_in d [e] /\ edges_in d es.
Proof.
  unfold edges_in. split.
  - intros H. split; intros u v w Hin; apply (H u v w); simpl in *; tauto.
  - intros [H1 H2] u v w [Hin|Hin].
    + apply (H1 u v w). left. assumption.
    + apply (H2 u v w). assumption.
Qed.

Lemma edges_in_length d d' es :
  length d' = length d -> edges_in d es -> edges_in d' es.
Proof. unfold edges_in, in_vec. intros Hl H u v w Hin. rewrite Hl. eauto. Qed.

Lemma for_each_run es m :
  edges_in (dist m) es ->
  for_each es relax m =
  Done tt (Machine (relax_pass es (dist m)) (trace m ++ map visit es)).
Proof.
  revert m. induction es as [|e es IH]; intros m He.
  - simpl. unfold ret. rewrite app_nil_r. destruct m; reflexivity.
  - apply edges_in_cons in He as [He1 He2].
    simpl for_each. unfold bind. rewrite relax_run by assumption.
    rewrite IH; cbn [dist trace].
    + rewrite <- app_assoc. reflexivity.
    + eapply edges_in_length; [|exact He2]. apply length_relax_edge.
Qed.

Lemma repeat_loop_run n es m :
  edges_in (dist m) es ->
  repeat_loop n (emit round_begin ;; for_each es relax) m =
  Done tt (Machine (relax_rounds n es (dist m)) (trace m ++ rounds_trace n es)).
Proof.
  revert m. induction n as [|n IH]; intros m He.
  - simpl. unfold ret. rewrite app_nil_r. destruct m; reflexivity.
  - simpl repeat_loop. unfold bind at 1. unfold bind at 1. unfold emit.
    rewrite for_each_run by exact He. cbn [dist trace].
    rewrite IH; cbn [dist trace].
    + simpl rounds_trace. rewrite <- !app_assoc. reflexivity.
    + eapply edges_in_length; [|exact He]. apply length_relax_pass.
Qed.

Lemma verify_run es m :
  edges_in (dist m) es ->
  verify es m =
  Done (existsb (improving (dist m)) es)
       (Machine (dist m)
                (trace m ++ map visit (firstn (examined (dist m) es) es))).
Proof.
  revert m. induction es as [|e es IH]; intros m He.
  - simpl. unfold ret. rewrite app_nil_r. destruct m; reflexivity.
  - apply edges_in_cons in He as [He1 He2]. destruct e as [[u v] w].
    destruct (He1 u v w (or_introl eq_refl)) as [Hu Hv].
    cbn [verify]. unfold bind at 1. unfold emit. unfold bind at 1.
    rewrite improves_run by assumption. cbn [dist trace existsb examined].
    destruct (improving (dist m) (u, v, w)).
    + reflexivity.
    + rewrite IH by exact He2. cbn [dist trace orb firstn map].
      rewrite <- app_assoc. reflexivity.
Qed.

Lemma edges_in_valid V edges source d :
  valid_input V edges source = true -> length d = Z.to_nat V -> edges_in d edges.
Proof.
  intros Hv Hl. apply valid_input_spec in Hv as (HV & Hs & He).
  intros u v w Hin. unfold in_vec. rewrite Hl. specialize (He _ _ _ Hin). lia.
Qed.

(** The whole call on a valid input: the flag is the verification test on
    the vector left by the V - 1 rounds, which is also the vector returned. *)
Lemma bellmanFord_run V edges source d0 :
  valid_input V edges source = true ->
  bellmanFord V edges source (call d0) =
  Done (existsb (improving (final_dist V edges source)) edges)
       (Machine (final_dist V edges source)
                (rounds_trace (Z.to_nat (V - 1)) edges
                 ++ check_trace (final_dist V edges source) edges)).
Proof.
  intros Hv. pose proof Hv as Hv'. apply valid_input_spec in Hv' as (HV & Hs & He).
  unfold bellmanFord. unfold bind at 1. unfold vec_assign.
  destruct (decide (V < 0)); [lia|].
  unfold bind at 1. unfold vec_set. cbn [dist set_dist call trace].
  destruct (index_in_vec (replicate (Z.to_nat V) INF) source) as [x Hx].
  { unfold in_vec. rewrite length_replicate. lia. }
  rewrite Hx. fold (init_dist V source).
  unfold bind at 1. rewrite repeat_loop_run; cbn [dist trace].
  - unfold bind at 1. unfold emit. cbn [dist trace].
    rewrite verify_run; cbn [dist trace].
    + unfold check_trace. rewrite <- app_assoc. reflexivity.
    + eapply edges_in_valid; [exact Hv|]. apply length_final_dist.
  - eapply edges_in_valid; [exact Hv|]. apply length_init_dist.
Qed.

(** Counting the events of a trace. *)
Lemma rounds_app t1 t2 : rounds (t1 ++ t2) = (rounds t1 + rounds t2)%nat.
Proof. induction t1 as [|[| |e] t1 IH]; simpl; lia. Qed.

Lemma checks_app t1 t2 : checks (t1 ++ t2) = (checks t1 + checks t2)%nat.
Proof. induction t1 as [|[| |e] t1 IH]; simpl; lia. Qed.

Lemma visits_app t1 t2 : visits (t1 ++ t2) = (visits t1 + visits t2)%nat.
Proof. induction t1 as [|[| |e] t1 IH]; simpl; lia. Qed.

Lemma count_map_visit es :
  rounds (map visit es) = O /\ checks (map visit es) = O /\
  visits (map visit es) = length es.
Proof. induction es as [|e es IH]; simpl; [auto|]. lia. Qed.

Lemma count_rounds_trace n es :
  rounds (rounds_trace n es) = n /\ checks (rounds_trace n es) = O /\
  visits (rounds_trace n es) = (n * length es)%nat.
Proof.
  induction n as [|n IH]; [simpl; auto|].
  pose proof (count_map_visit es) as Hm.
  cbn [rounds_trace app rounds checks visits].
  rewrite rounds_app, checks_app, visits_app. lia.
Qed.

(** ** One relaxation step *)

Lemma improving_true d u v w :
  improving d (u, v, w) = true <->
  exists du dv, index d u = Some du /\ index d v = Some dv /\
                du <> INF /\ add32 du w < dv.
Proof.
  unfold improving. split.
  - destruct (index d u) as [du|]; [|discriminate].
    destruct (index d v) as [dv|]; [|discriminate].
    rewrite andb_true_iff, negb_true_iff, Z.eqb_neq, Z.ltb_lt.
    intros [H1 H2]. exists du, dv. auto.
  - intros (du & dv & -> & -> & H1 & H2).
    rewrite andb_true_iff, negb_true_iff, Z.eqb_neq, Z.ltb_lt. auto.
Qed.

Lemma improving_false d u v w du dv :
  index d u = Some du -> index d v = Some dv ->
  improving d (u, v, w) = false -> du <> INF -> dv <= add32 du w.
Proof.
  intros Hu Hv Hi Hne. destruct (Z_lt_le_dec (add32 du w) dv) as [Hlt|]; [|assumption].
  assert (improving d (u, v, w) = true) as Ht
    by (apply improving_true; exists du, dv; auto).
  congruence.
Qed.

(** A step either leaves the vector alone or lowers [dist[v]] to
    [dist[u] + w], where [dist[u]] is not the sentinel. *)
Lemma relax_edge_cases d u v w :
  relax_edge d (u, v, w) = d \/
  exists du dv, index d u = Some du /\ index d v = Some dv /\
                du <> INF /\ add32 du w < dv /\
                relax_edge d (u, v, w) = <[Z.to_nat v := add32 du w]> d.
Proof.
  unfold relax_edge. destruct (index d u) as [du|] eqn:Hu; [|left; reflexivity].
  destruct (improving d (u, v, w)) eqn:Hi; [|left; reflexivity].
  right. apply improving_true in Hi as (du' & dv & Hu' & Hv & H1 & H2).
  rewrite Hu in Hu'. injection Hu' as <-. exists du, dv. auto.
Qed.

Lemma relax_edge_index d u v w x :
  index (relax_edge d (u, v, w)) x = index d x \/
  x = v /\ exists du dv, index d u = Some du /\ index d v = Some dv /\
           du <> INF /\ add32 du w < dv /\
           index (relax_edge d (u, v, w)) v = Some (add32 du w).
Proof.
  destruct (relax_edge_cases d u v w) as [->|(du & dv & Hu & Hv & H1 & H2 & ->)];
    [left; reflexivity|].
  destruct (Z.eq_dec v x) as [<-|Hne].
  - right. split; [reflexivity|]. exists du, dv. repeat split; auto.
    apply index_insert_eq. eapply index_Some; eassumption.
  - left. apply index_insert_ne; [|assumption].
    apply index_Some in Hv. unfold in_vec in Hv. lia.
Qed.

(** Entries never increase. *)
Lemma relax_edge_mono d e x dx :
  index d x = Some dx ->
  exists dx', index (relax_edge d e) x = Some dx' /\ dx' <= dx.
Proof.
  destruct e as [[u v] w]. intros Hx.
  destruct (relax_edge_index d u v w x)
    as [->|(-> & du & dv & Hu & Hv & H1 & H2 & ->)].
  - exists dx. split; [assumption|lia].
  - rewrite Hv in Hx. injection Hx as <-. exists (add32 du w). split; [reflexivity|lia].
Qed.

Lemma relax_pass_mono es d x dx :
  index d x = Some dx ->
  exists dx', index (relax_pass es d) x = Some dx' /\ dx' <= dx.
Proof.
  revert d dx. induction es as [|e es IH]; intros d dx Hx.
  - exists dx. split; [assumption|lia].
  - destruct (relax_edge_mono d e x dx Hx) as (d1 & H1 & Hle).
    destruct (IH _ _ H1) as (d2 & H2 & Hle2).
    exists d2. split; [exact H2|lia].
Qed.

Lemma relax_rounds_mono n es d x dx :
  index d x = Some dx ->
  exists dx', index (relax_rounds n es d) x = Some dx' /\ dx' <= dx.
Proof.
  revert d dx. induction n as [|n IH]; intros d dx Hx.
  - exists dx. split; [assumption|lia].
  - destruct (relax_pass_mono es d x dx Hx) as (d1 & H1 & Hle).
    destruct (IH _ _ H1) as (d2 & H2 & Hle2).
    exists d2. split; [exact H2|lia].
Qed.

(** Invariants of single steps carry over to passes and rounds. *)
Lemma relax_pass_ind (P : list Z -> Prop) (edges es : list edge) :
  (forall d e, In e edges -> P d -> P (relax_edge d e)) ->
  incl es edges -> forall d, P d -> P (relax_pass es d).
Proof.
  intros Hstep. induction es as [|e es IH]; intros Hincl d Hd; [exact Hd|].
  unfold relax_pass. simpl. apply IH.
  - intros a Ha. apply Hincl. right. exact Ha.
  - apply Hstep; [apply Hincl; left; reflexivity|exact Hd].
Qed.

Lemma relax_rounds_ind (P : list Z -> Prop) (edges : list edge) n :
  (forall d e, In e edges -> P d -> P (relax_edge d e)) ->
  forall d, P d -> P (relax_rounds n edges d).
Proof.
  intros Hstep. induction n as [|n IH]; intros d Hd; [exact Hd|].
  simpl. apply IH. apply (relax_pass_ind P edges edges Hstep); [apply incl_refl|exact Hd].
Qed.

Lemma index_init_dist V source x :
  0 <= source < V -> 0 <= x < V ->
  index (init_dist V source) x = Some (if decide (x = source) then 0 else INF).
Proof.
  intros Hs Hx. unfold init_dist. destruct (decide (x = source)) as [->|Hne].
  - apply index_insert_eq. unfold in_vec. rewrite length_replicate. lia.
  - rewrite index_insert_ne by lia. unfold index.
    destruct (decide (0 <= x)); [|lia]. apply lookup_replicate_2. lia.
Qed.

(** ** Walks *)

Section Walks.
Variable edges : list edge.

Lemma weight_app p q : weight (q ++ p) = weight q + weight p.
Proof.
  induction q as [|[[u v] w] q IH]; simpl; [reflexivity|]. rewrite IH. lia.
Qed.

Lemma ends_app p q : ends (q ++ p) = ends q ++ ends p.
Proof.
  induction q as [|[[u v] w] q IH]; simpl; [reflexivity|]. rewrite IH. reflexivity.
Qed.

Lemma length_ends p : length (ends p) = length p.
Proof. induction p as [|[[u v] w] p IH]; simpl; congruence. Qed.

Lemma walk_app a b c p q :
  walk edges a p b -> walk edges b q c -> walk edges a (q ++ p) c.
Proof.
  intros Hp Hq. induction Hq as [|q u v w Hq IH Hin]; simpl; [exact Hp|].
  apply walk_snoc; assumption.
Qed.

Lemma reachable_refl a : reachable edges a a.
Proof. exists []. constructor. Qed.

Lemma reachable_step a u v w :
  reachable edges a u -> In (u, v, w) edges -> reachable edges a v.
Proof. intros [p Hp] Hin. exists ((u, v, w) :: p). constructor; assumption. Qed.

Lemma reachable_trans a b c :
  reachable edges a b -> reachable edges b c -> reachable edges a c.
Proof. intros [p Hp] [q Hq]. exists (q ++ p). eapply walk_app; eassumption. Qed.

(** The last vertex of a walk heads its vertex list. *)
Lemma vertices_head a p b :
  walk edges a p b -> exists l, vertices a p = b :: l.
Proof.
  intros H. destruct H as [|p u v w H Hin]; unfold vertices; simpl; eauto.
Qed.

(** Cutting a walk at one of its vertices. *)
Lemma walk_split a p b y :
  walk edges a p b -> In y (vertices a p) ->
  exists p1 p2, p = p2 ++ p1 /\ walk edges a p1 y /\ walk edges y p2 b.
Proof.
  intros H. induction H as [|p u v w H IH Hin]; intros Hy.
  - unfold vertices in Hy. simpl in Hy. destruct Hy as [<-|[]].
    exists [], []. repeat split; constructor.
  - unfold vertices in Hy. simpl in Hy. destruct Hy as [<-|Hy].
    + exists ((u, v, w) :: p), []. repeat split; constructor; assumption.
    + destruct (IH Hy) as (p1 & p2 & -> & H1 & H2).
      exists p1, ((u, v, w) :: p2). repeat split; [assumption|].
      constructor; assumption.
Qed.

(** Every walk can be replaced by a simple one between the same ends; the
    simple walk is no heavier unless a negative simple cycle was cut out. *)
Lemma walk_simplify s p x :
  walk edges s p x ->
  exists p', walk edges s p' x /\ List.NoDup (vertices s p') /\
             (weight p' <= weight p \/ negative_cycle edges s).
Proof.
  intros H. induction H as [|p u v w H IH Hin].
  - exists []. split; [constructor|]. split; [|left; lia].
    unfold vertices. simpl. constructor; [intros []|constructor].
  - destruct IH as (q & Hq & Hnd & Hw).
    destruct (in_dec Z.eq_dec v (vertices s q)) as [Hv|Hv].
    + destruct (walk_split _ _ _ _ Hq Hv) as (q1 & q2 & -> & H1 & H2).
      exists q1. split; [exact H1|].
      unfold vertices in Hnd. rewrite ends_app, <- app_assoc in Hnd.
      fold (vertices s q1) in Hnd.
      split; [eapply NoDup_app_remove_l; exact Hnd|].
      destruct Hw as [Hw|Hw]; [|right; exact Hw].
      rewrite weight_app in Hw.
      destruct (Z_lt_le_dec (w + weight q2) 0) as [Hneg|Hpos].
      * right. exists v, ((u, v, w) :: q2). split; [exists q1; exact H1|].
        split; [constructor; assumption|]. split; [|simpl; exact Hneg].
        simpl. destruct (vertices_head _ _ _ H1) as [l Hl]. rewrite Hl in Hnd.
        apply NoDup_remove in Hnd as [Hnd Hnotin]. constructor.
        -- intros Hc. apply Hnotin. apply in_or_app. left. exact Hc.
        -- eapply NoDup_app_remove_r. exact Hnd.
      * left. simpl. lia.
    + exists ((u, v, w) :: q). split; [constructor; assumption|].
      split; [unfold vertices; simpl; constructor; assumption|].
      destruct Hw as [Hw|Hw]; [left; simpl; lia|right; exact Hw].
Qed.

(** Vertices of walks stay inside the graph. *)
Lemma walk_vertices_in V s p x :
  (forall u v w, In (u, v, w) edges -> 0 <= u < V /\ 0 <= v < V) ->
  0 <= s < V -> walk edges s p x ->
  forall y, In y (vertices s p) -> 0 <= y < V.
Proof.
  intros He Hs H. induction H as [|p u v w H IH Hin]; intros y Hy.
  - unfold vertices in Hy. simpl in Hy. destruct Hy as [<-|[]]. exact Hs.
  - unfold vertices in Hy. simpl in Hy. destruct Hy as [<-|Hy].
    + apply (He _ _ _ Hin).
    + apply IH. exact Hy.
Qed.

(** A simple walk has fewer edges than the graph has vertices. *)
Lemma simple_walk_short V s p x :
  (forall u v w, In (u, v, w) edges -> 0 <= u < V /\ 0 <= v < V) ->
  0 <= s < V -> walk edges s p x -> List.NoDup (vertices s p) ->
  Z.of_nat (length p) <= V - 1.
Proof.
  intros He Hs H Hnd.
  assert (incl (vertices s p) (map Z.of_nat (seq 0 (Z.to_nat V)))) as Hincl.
  { intros y Hy. pose proof (walk_vertices_in V s p x He Hs H y Hy) as Hr.
    apply in_map_iff. exists (Z.to_nat y). split; [lia|]. apply in_seq. lia. }
  pose proof (NoDup_incl_length Hnd Hincl) as Hlen.
  unfold vertices in Hlen.
  rewrite length_app, length_ends, length_map, length_seq in Hlen.
  simpl in Hlen. lia.
Qed.

(** Weights of walks are bounded by their length. *)
Lemma weight_bound W a p b :
  (forall u v w, In (u, v, w) edges -> - W <= w <= W) ->
  walk edges a p b ->
  - (Z.of_nat (length p) * W) <= weight p <= Z.of_nat (length p) * W.
Proof.
  intros HW H. induction H as [|p u v w H IH Hin]; simpl length; simpl weight; [lia|].
  specialize (HW _ _ _ Hin). lia.
Qed.
End Walks.

Lemma add32_exact a b : INT_MIN <= a + b <= INT_MAX -> add32 a b = a + b.
Proof.
  unfold INT_MIN, INT_MAX, add32, wrap32. intros H.
  rewrite Z.mod_small by lia. lia.
Qed.

Lemma existsb_false {A} (f : A -> bool) (l : list A) :
  existsb f l = false -> forall x, In x l -> f x = false.
Proof.
  induction l as [|a l IH]; simpl; [intros _ x []|].
  rewrite orb_false_iff. intros [Ha Hl] x [<-|Hx]; auto.
Qed.

Lemma final_in_vec V edges source x :
  0 <= x < V -> in_vec (final_dist V edges source) x.
Proof. unfold in_vec. rewrite length_final_dist. lia. Qed.

(** ** Finite entries belong to reachable vertices *)

Section Reachability.
Variables (V : Z) (edges : list edge) (source : Z).
Hypothesis HV : 0 < V.
Hypothesis Hsource : 0 <= source < V.
Hypothesis Hedges :
  forall u v w, In (u, v, w) edges -> 0 <= u < V /\ 0 <= v < V.

Lemma init_finite_reachable : finite_reachable edges source (init_dist V source).
Proof.
  intros x dx Hx Hne. pose proof (index_Some _ _ _ Hx) as Hin.
  unfold in_vec in Hin. rewrite length_init_dist in Hin.
  rewrite index_init_dist in Hx by lia.
  destruct (decide (x = source)) as [->|]; [apply reachable_refl|congruence].
Qed.

Lemma relax_edge_finite_reachable d e :
  In e edges -> finite_reachable edges source d ->
  finite_reachable edges source (relax_edge d e).
Proof.
  destruct e as [[u v] w]. intros Hin Hd x dx Hx Hne.
  destruct (relax_edge_index d u v w x)
    as [Heq|(-> & du & dv & Hu & Hv & H1 & H2 & Hnew)].
  - rewrite Heq in Hx. eapply Hd; eassumption.
  - eapply reachable_step; [|exact Hin]. eapply Hd; eassumption.
Qed.

Lemma final_finite_reachable : finite_reachable edges source (final_dist V edges source).
Proof.
  unfold final_dist. apply (relax_rounds_ind (finite_reachable edges source) edges).
  - intros d e. apply relax_edge_finite_reachable.
  - apply init_finite_reachable.
Qed.

(** The source never goes back to the sentinel. *)
Lemma final_source :
  exists d0, index (final_dist V edges source) source = Some d0 /\ d0 <= 0.
Proof.
  unfold final_dist. apply relax_rounds_mono.
  rewrite index_init_dist by lia. destruct (decide (source = source)); congruence.
Qed.

End Reachability.

(** ** Correctness of the rounds under bounded weights

    [W] bounds the weights, [W * V] stays below the sentinel, and no walk of
    up to [N] edges from the source comes within [W] of [INT_MIN]; [N] covers
    every relaxation of the run. The last hypothesis is met either by a bound
    on the weights ([floor_by_steps]) or by the absence of negative cycles
    ([floor_by_cycles]). *)

Section Bounded.
Variables (V : Z) (edges : list edge) (source : Z) (W : Z) (N : nat).
Hypothesis HV : 0 < V.
Hypothesis Hsource : 0 <= source < V.
Hypothesis Hedges :
  forall u v w, In (u, v, w) edges -> 0 <= u < V /\ 0 <= v < V.
Hypothesis HW : forall u v w, In (u, v, w) edges -> - W <= w <= W.
Hypothesis HW0 : 0 <= W.
Hypothesis Hsentinel : W * V < INF.
Hypothesis HN : (Z.to_nat (V - 1) * length edges <= N)%nat.
Hypothesis Hfloor :
  forall p x, walk edges source p x -> (length p <= N)%nat ->
    INT_MIN <= weight p - W.

Lemma sound_init : sound V edges source 0 (init_dist V source).
Proof.
  split; [apply length_init_dist|]. intros x dx Hx.
  pose proof (index_Some _ _ _ Hx) as Hin.
  unfold in_vec in Hin. rewrite length_init_dist in Hin.
  rewrite index_init_dist in Hx by lia.
  destruct (decide (x = source)) as [->|]; injection Hx as <-; [right|left; reflexivity].
  split; [unfold INF; lia|]. exists []. repeat split; [constructor|reflexivity].
Qed.

Lemma complete_init : complete edges source 0 (init_dist V source).
Proof.
  intros p x Hp Hlen. destruct Hp as [|p u v w Hp Hin]; [|simpl in Hlen; lia].
  exists 0. rewrite index_init_dist by lia.
  destruct (decide (source = source)); [|congruence]. split; [reflexivity|simpl; lia].
Qed.

Lemma sound_weaken n n' d :
  (n <= n')%nat -> sound V edges source n d -> sound V edges source n' d.
Proof.
  intros Hle [Hl Hs]. split; [exact Hl|]. intros x dx Hx.
  destruct (Hs x dx Hx) as [->|(Hlt & p & Hp & Hw & Hlen)]; [left; reflexivity|].
  right. split; [exact Hlt|]. exists p. repeat split; auto. lia.
Qed.

(** The addition of the code is exact on a sound vector. *)
Lemma sound_add_exact n d u v w du :
  sound V edges source n d -> (n <= N)%nat ->
  In (u, v, w) edges -> index d u = Some du -> du <> INF ->
  add32 du w = du + w.
Proof.
  intros [Hl Hs] Hn Hin Hu Hne.
  destruct (Hs u du Hu) as [->|(Hlt & p & Hp & Hw & Hlen)]; [congruence|].
  pose proof (Hfloor p u Hp) as Hb.
  pose proof (HW _ _ _ Hin) as Hw'.
  assert (W * 1 <= W * V) as HWV by (apply Z.mul_le_mono_nonneg_l; lia).
  apply add32_exact. unfold INT_MIN, INT_MAX in *. unfold INF in *. lia.
Qed.

Lemma sound_step n d e :
  sound V edges source n d -> (n <= N)%nat ->
  In e edges -> sound V edges source (S n) (relax_edge d e).
Proof.
  destruct e as [[u v] w]. intros Hd Hn Hin.
  split; [rewrite length_relax_edge; apply Hd|]. intros x dx Hx.
  destruct (relax_edge_index d u v w x)
    as [Heq|(-> & du & dv & Hu & Hv & H1 & H2 & Hnew)].
  - rewrite Heq in Hx. apply (sound_weaken n (S n)) in Hd; [|lia].
    apply Hd. exact Hx.
  - rewrite Hnew in Hx. injection Hx as <-.
    rewrite (sound_add_exact n d u v w du Hd Hn Hin Hu H1) in *.
    destruct Hd as [Hl Hs].
    assert (dv <= INF) as Hdv by (destruct (Hs v dv Hv) as [->|[? _]]; lia).
    destruct (Hs u du Hu) as [->|(Hlt & p & Hp & Hw & Hlen)]; [congruence|].
    right. split; [lia|]. exists ((u, v, w) :: p).
    repeat split; [constructor; assumption|simpl; lia|simpl; lia].
Qed.

Lemma sound_pass es n d :
  incl es edges -> sound V edges source n d -> (n + length es <= N)%nat ->
  sound V edges source (n + length es) (relax_pass es d).
Proof.
  revert n d. induction es as [|e es IH]; intros n d Hincl Hd Hn.
  - simpl. rewrite Nat.add_0_r. exact Hd.
  - unfold relax_pass. simpl fold_left. fold (relax_pass es (relax_edge d e)).
    simpl length in *.
    replace (n + S (length es))%nat with (S n + length es)%nat in * by lia.
    apply IH.
    + intros a Ha. apply Hincl. right. exact Ha.
    + apply sound_step; [exact Hd|lia|apply Hincl; left; reflexivity].
    + exact Hn.
Qed.

Lemma sound_rounds k n d :
  sound V edges source n d -> (n + k * length edges <= N)%nat ->
  sound V edges source (n + k * length edges) (relax_rounds k edges d).
Proof.
  revert n d. induction k as [|k IH]; intros n d Hd Hn.
  - simpl. rewrite Nat.add_0_r. exact Hd.
  - simpl relax_rounds.
    replace (n + S k * length edges)%nat
      with (n + length edges + k * length edges)%nat in * by lia.
    apply IH; [|exact Hn]. apply sound_pass; [apply incl_refl|exact Hd|lia].
Qed.

Lemma final_sound :
  sound V edges source (Z.to_nat (V - 1) * length edges) (final_dist V edges source).
Proof.
  unfold final_dist.
  apply (sound_rounds (Z.to_nat (V - 1)) 0 (init_dist V source) sound_init).
  simpl. exact HN.
Qed.

Lemma final_add_exact u v w du :
  In (u, v, w) edges -> index (final_dist V edges source) u = Some du ->
  du <> INF -> add32 du w = du + w.
Proof.
  intros Hin Hu Hne.
  apply (sound_add_exact _ _ u v w du final_sound HN Hin Hu Hne).
Qed.

(** What one pass guarantees for each of its edges. *)
Lemma pass_relaxes es n d :
  incl es edges -> sound V edges source n d -> (n + length es <= N)%nat ->
  forall u v w du c, In (u, v, w) es ->
    index d u = Some du -> du <= c -> c < INF ->
    exists dv, index (relax_pass es d) v = Some dv /\ dv <= c + w.
Proof.
  revert n d.
  induction es as [|e es IH]; intros n d Hincl Hd Hn u v w du c Hin Hu Hle Hc;
    [destruct Hin|].
  simpl length in Hn.
  assert (sound V edges source (S n) (relax_edge d e)) as Hd1
    by (apply sound_step; [exact Hd|lia|apply Hincl; left; reflexivity]).
  unfold relax_pass. simpl fold_left. fold (relax_pass es (relax_edge d e)).
  destruct Hin as [->|Hin].
  - assert (In (u, v, w) edges) as Hin by (apply Hincl; left; reflexivity).
    assert (exists dv1, index (relax_edge d (u, v, w)) v = Some dv1 /\ dv1 <= c + w)
      as (dv1 & Hv1 & Hle1).
    { assert (du <> INF) as Hne by lia.
      assert (add32 du w = du + w) as Hex
        by (apply (sound_add_exact n d u v w du Hd); auto; lia).
      destruct (index_in_vec d v) as [dv Hv].
      { unfold in_vec. destruct Hd as [-> _]. specialize (Hedges _ _ _ Hin). lia. }
      destruct (relax_edge_cases d u v w)
        as [Heq|(du' & dv' & Hu' & Hv' & H1 & H2 & Heq)].
      - rewrite Heq. exists dv. split; [exact Hv|].
        assert (improving d (u, v, w) = false) as Hi.
        { destruct (improving d (u, v, w)) eqn:Hi; [|reflexivity].
          unfold relax_edge in Heq. rewrite Hu, Hi in Heq.
          apply (f_equal (fun l => index l v)) in Heq.
          rewrite index_insert_eq in Heq by (eapply index_Some; eassumption).
          rewrite Hv in Heq. injection Heq as Heq.
          apply improving_true in Hi as (a & b & Ha & Hb & _ & Hlt).
          rewrite Hu in Ha. rewrite Hv in Hb.
          injection Ha as <-. injection Hb as <-. lia. }
        pose proof (improving_false d u v w du dv Hu Hv Hi Hne). lia.
      - rewrite Hu in Hu'. injection Hu' as <-.
        rewrite Heq. exists (add32 du w). split; [|lia].
        apply index_insert_eq. eapply index_Some; eassumption. }
    destruct (relax_pass_mono es _ v dv1 Hv1) as (dv2 & Hv2 & Hle2).
    exists dv2. split; [exact Hv2|lia].
  - destruct (relax_edge_mono d e u du Hu) as (du1 & Hu1 & Hle1).
    apply (IH (S n) (relax_edge d e)) with (u := u) (du := du1); auto.
    + intros a Ha. apply Hincl. right. exact Ha.
    + lia.
    + lia.
Qed.

Lemma complete_round k n d :
  sound V edges source n d -> complete edges source k d ->
  (n + length edges <= N)%nat -> Z.of_nat k <= V ->
  complete edges source (S k) (relax_pass edges d).
Proof.
  intros Hd Hc Hn Hk p x Hp Hlen.
  destruct Hp as [|p u v w Hp Hin].
  - destruct (Hc [] source (walk_nil _ _)) as (d0 & H0 & Hle0); [simpl; lia|].
    destruct (relax_pass_mono edges d source d0 H0) as (d1 & H1 & Hle1).
    exists d1. split; [exact H1|lia].
  - simpl in Hlen. destruct (Hc p u Hp) as (du & Hu & Hle); [lia|].
    pose proof (weight_bound edges W _ _ _ HW Hp) as Hb.
    assert (Z.of_nat (length p) * W <= V * W) as Hmul
      by (apply Z.mul_le_mono_nonneg_r; lia).
    destruct (pass_relaxes edges n d (incl_refl _) Hd Hn u v w du (weight p) Hin Hu Hle)
      as (dv & Hv & Hlev); [lia|].
    exists dv. split; [exact Hv|simpl; lia].
Qed.

Lemma complete_rounds j : forall k n d,
  sound V edges source n d -> complete edges source k d ->
  (n + j * length edges <= N)%nat -> Z.of_nat (k + j) <= V ->
  complete edges source (k + j) (relax_rounds j edges d).
Proof.
  induction j as [|j IH]; intros k n d Hd Hc Hn Hk.
  - simpl. rewrite Nat.add_0_r. exact Hc.
  - simpl relax_rounds. replace (k + S j)%nat with (S k + j)%nat in * by lia.
    apply (IH (S k) (n + length edges)%nat).
    + apply sound_pass; [apply incl_refl|exact Hd|lia].
    + apply (complete_round k n); auto; lia.
    + lia.
    + exact Hk.
Qed.

Lemma final_complete :
  complete edges source (Z.to_nat (V - 1)) (final_dist V edges source).
Proof.
  unfold final_dist.
  apply (complete_rounds (Z.to_nat (V - 1)) 0 0 (init_dist V source)
           sound_init complete_init).
  - simpl. exact HN.
  - lia.
Qed.

(** Every reachable vertex ends with a value below the sentinel. *)
Lemma reachable_finite x :
  reachable edges source x ->
  exists dx, index (final_dist V edges source) x = Some dx /\ dx < INF.
Proof.
  intros [p Hp]. destruct (walk_simplify edges _ _ _ Hp) as (q & Hq & Hnd & _).
  pose proof (simple_walk_short edges V _ _ _ Hedges Hsource Hq Hnd) as Hlen.
  destruct (final_complete q x Hq) as (dx & Hx & Hle); [lia|].
  exists dx. split; [exact Hx|].
  pose proof (weight_bound edges W _ _ _ HW Hq) as Hb.
  assert (Z.of_nat (length q) * W <= V * W) as Hmul
    by (apply Z.mul_le_mono_nonneg_r; lia).
  lia.
Qed.

(** Without an improving edge, distances are consistent along every walk
    that starts at a reachable vertex. *)
Lemma fixed_point_walk a c b :
  (forall e, In e edges -> improving (final_dist V edges source) e = false) ->
  reachable edges source a -> walk edges a c b ->
  exists da db, index (final_dist V edges source) a = Some da /\
                index (final_dist V edges source) b = Some db /\
                db <= da + weight c.
Proof.
  intros Hfix Ha Hc. induction Hc as [|c u v w Hc IH Hin].
  - destruct (reachable_finite a Ha) as (da & Hda & _).
    exists da, da. repeat split; auto. simpl. lia.
  - destruct IH as (da & du & Hda & Hdu & Hle).
    destruct (reachable_finite u) as (du' & Hdu' & Hlt).
    { eapply reachable_trans; [exact Ha|]. exists c. exact Hc. }
    rewrite Hdu in Hdu'. injection Hdu' as <-.
    destruct (index_in_vec (final_dist V edges source) v) as [dv Hdv].
    { apply final_in_vec. apply (Hedges _ _ _ Hin). }
    pose proof (improving_false _ u v w du dv Hdu Hdv (Hfix _ Hin)) as Hnot.
    rewrite (final_add_exact u v w du Hin Hdu) in Hnot by lia.
    exists da, dv. repeat split; auto. simpl. lia.
Qed.

(** A negative closed walk at a reachable vertex is detected. *)
Lemma negative_walk_detected x c :
  reachable edges source x -> walk edges x c x -> weight c < 0 ->
  existsb (improving (final_dist V edges source)) edges = true.
Proof.
  intros Hx Hc Hneg.
  destruct (existsb (improving (final_dist V edges source)) edges) eqn:Hex;
    [reflexivity|].
  pose proof (existsb_false _ _ Hex) as Hfix.
  destruct (fixed_point_walk x c x Hfix Hx Hc) as (da & db & Ha & Hb & Hle).
  rewrite Ha in Hb. injection Hb as <-. lia.
Qed.

(** An improving edge after the rounds exhibits a negative cycle. *)
Lemma improving_negative_cycle :
  existsb (improving (final_dist V edges source)) edges = true ->
  negative_cycle edges source.
Proof.
  intros Hex. apply existsb_exists in Hex as ([[u v] w] & Hin & Hi).
  apply improving_true in Hi as (du & dv & Hu & Hv & Hne & Hlt).
  rewrite (final_add_exact u v w du Hin Hu Hne) in Hlt.
  destruct final_sound as [_ Hs].
  destruct (Hs u du Hu) as [->|(_ & q & Hq & Hw & _)]; [congruence|].
  assert (walk edges source ((u, v, w) :: q) v) as Hp by (constructor; assumption).
  destruct (walk_simplify edges _ _ _ Hp) as (p' & Hp' & Hnd & [Hle|Hcyc]);
    [|exact Hcyc].
  pose proof (simple_walk_short edges V _ _ _ Hedges Hsource Hp' Hnd) as Hlen.
  destruct (final_complete p' v Hp') as (dv' & Hv' & Hle'); [lia|].
  rewrite Hv in Hv'. injection Hv' as <-. simpl in Hle. lia.
Qed.

End Bounded.

(** ** The weight bounds in the form the invariants use *)

Lemma max_abs_weight_nonneg edges : 0 <= max_abs_weight edges.
Proof. induction edges as [|[[u v] w] es IH]; simpl; lia. Qed.

Lemma max_abs_weight_bound edges u v w :
  In (u, v, w) edges -> - max_abs_weight edges <= w <= max_abs_weight edges.
Proof.
  induction edges as [|[[u' v'] w'] es IH]; simpl; [intros []|].
  intros [Heq|Hin]; [injection Heq as -> -> ->; lia|]. specialize (IH Hin). lia.
Qed.

(** With [no_underflow], walks as long as the whole run stay above
    [INT_MIN] with room for one more edge. *)
Lemma floor_by_steps V edges source :
  0 < V -> no_underflow V edges = true ->
  forall p x, walk edges source p x ->
    (length p <= Z.to_nat (V - 1) * length edges)%nat ->
    INT_MIN <= weight p - max_abs_weight edges.
Proof.
  intros HV Hb p x Hp Hlen. unfold no_underflow in Hb. apply Z.leb_le in Hb.
  pose proof (max_abs_weight_nonneg edges) as H0.
  pose proof (weight_bound edges _ _ _ _ (max_abs_weight_bound edges) Hp) as Hw.
  assert (Z.of_nat (length p) <= (V - 1) * Z.of_nat (length edges)) as Hl.
  { apply Nat2Z.inj_le in Hlen. rewrite Nat2Z.inj_mul, Z2Nat.id in Hlen by lia.
    exact Hlen. }
  assert (Z.of_nat (length p) * max_abs_weight edges
          <= (V - 1) * Z.of_nat (length edges) * max_abs_weight edges) as Hmul
    by (apply Z.mul_le_mono_nonneg_r; lia).
  unfold INT_MIN. lia.
Qed.

(** Without a negative cycle, no walk from the source is lighter than a
    simple path. *)
Lemma floor_by_cycles V edges source :
  0 <= source < V ->
  (forall u v w, In (u, v, w) edges -> 0 <= u < V /\ 0 <= v < V) ->
  below_sentinel V edges = true ->
  ~ negative_cycle edges source ->
  forall p x, walk edges source p x ->
    INT_MIN <= weight p - max_abs_weight edges.
Proof.
  intros Hs He Hb Hno p x Hp. unfold below_sentinel in Hb. apply Z.ltb_lt in Hb.
  pose proof (max_abs_weight_nonneg edges) as H0.
  destruct (walk_simplify edges _ _ _ Hp) as (q & Hq & Hnd & [Hle|Hc]);
    [|contradiction].
  pose proof (simple_walk_short edges V _ _ _ He Hs Hq Hnd) as Hlen.
  pose proof (weight_bound edges _ _ _ _ (max_abs_weight_bound edges) Hq) as Hw.
  assert (Z.of_nat (length q) * max_abs_weight edges
          <= (V - 1) * max_abs_weight edges) as Hmul
    by (apply Z.mul_le_mono_nonneg_r; lia).
  unfold INT_MIN, INF in *. lia.
Qed.

(** ** The verification pass *)

Lemma examined_le d es : (examined d es <= length es)%nat.
Proof.
  induction es as [|e es IH]; simpl; [lia|]. destruct (improving d e); lia.
Qed.

Lemma examined_all d es :
  existsb (improving d) es = false -> examined d es = length es.
Proof.
  induction es as [|e es IH]; simpl; [reflexivity|].
  destruct (improving d e); simpl; [discriminate|]. intros H. rewrite IH; auto.
Qed.

Lemma examined_some d es :
  existsb (improving d) es = true -> (1 <= examined d es)%nat.
Proof.
  destruct es as [|e es]; simpl; [discriminate|]. destruct (improving d e); lia.
Qed.

(** ** Edges at unreachable vertices do nothing *)

Lemma touches_idle edges source d x e :
  finite_reachable edges source d -> ~ reachable edges source x ->
  In e edges -> touches x e = true ->
  improving d e = false /\ relax_edge d e = d.
Proof.
  destruct e as [[u v] w]. intros Hd Hx Hin Ht.
  assert (improving d (u, v, w) = false) as Hi.
  { destruct (improving d (u, v, w)) eqn:Hi; [|reflexivity]. exfalso.
    apply improving_true in Hi as (du & dv & Hu & Hv & Hne & _).
    pose proof (Hd u du Hu Hne) as Hru.
    unfold touches in Ht.
    apply orb_true_iff in Ht as [Ht|Ht]; apply Z.eqb_eq in Ht; subst x.
    - exact (Hx Hru).
    - exact (Hx (reachable_step edges _ _ _ _ Hru Hin)). }
  split; [exact Hi|]. unfold relax_edge. rewrite Hi. destruct (index d u); reflexivity.
Qed.

Lemma relax_pass_without edges source x es d :
  ~ reachable edges source x -> incl es edges ->
  finite_reachable edges source d ->
  relax_pass (without x es) d = relax_pass es d.
Proof.
  intros Hx. revert d. induction es as [|e es IH]; intros d Hincl Hd; [reflexivity|].
  assert (In e edges) as Hin by (apply Hincl; left; reflexivity).
  assert (incl es edges) as Hincl' by (intros a Ha; apply Hincl; right; exact Ha).
  unfold without, relax_pass in *. simpl.
  destruct (touches x e) eqn:Ht; simpl.
  - destruct (touches_idle edges source d x e Hd Hx Hin Ht) as [_ ->].
    apply IH; assumption.
  - apply IH; [assumption|]. apply relax_edge_finite_reachable; assumption.
Qed.

Lemma relax_rounds_without edges source x n d :
  ~ reachable edges source x -> finite_reachable edges source d ->
  relax_rounds n (without x edges) d = relax_rounds n edges d.
Proof.
  intros Hx. revert d. induction n as [|n IH]; intros d Hd; [reflexivity|].
  simpl. rewrite (relax_pass_without edges source x edges d Hx (incl_refl _) Hd).
  apply IH. apply (relax_pass_ind (finite_reachable edges source) edges edges);
    [intros d' e'; apply relax_edge_finite_reachable|apply incl_refl|exact Hd].
Qed.

Lemma existsb_without edges source x es d :
  ~ reachable edges source x -> incl es edges ->
  finite_reachable edges source d ->
  existsb (improving d) (without x es) = existsb (improving d) es.
Proof.
  intros Hx. induction es as [|e es IH]; intros Hincl Hd; [reflexivity|].
  assert (In e edges) as Hin by (apply Hincl; left; reflexivity).
  assert (incl es edges) as Hincl' by (intros a Ha; apply Hincl; right; exact Ha).
  unfold without in *. simpl. destruct (touches x e) eqn:Ht; simpl.
  - destruct (touches_idle edges source d x e Hd Hx Hin Ht) as [-> _]. simpl. auto.
  - rewrite IH by assumption. reflexivity.
Qed.

Lemma valid_input_without V edges source x :
  valid_input V edges source = true ->
  valid_input V (without x edges) source = true.
Proof.
  rewrite !valid_input_spec. intros (HV & Hs & He). repeat split; try lia;
    apply (He u v w); unfold without in H; apply filter_In in H; tauto.
Qed.

(** ** Negative cycles and the flag *)

Lemma small_weights_spec V edges :
  small_weights V edges = true ->
  below_sentinel V edges = true /\ no_underflow V edges = true.
Proof. unfold small_weights. apply andb_true_iff. Qed.

(** The side conditions of the section [Bounded] at [max_abs_weight]. *)
Ltac weight_side Hb :=
  first [ apply max_abs_weight_bound
        | apply max_abs_weight_nonneg
        | unfold below_sentinel in Hb; apply Z.ltb_lt in Hb; exact Hb ].

Lemma flag_negative_cycle V edges source :
  valid_input V edges source = true -> small_weights V edges = true ->
  existsb (improving (final_dist V edges source)) edges = true ->
  negative_cycle edges source.
Proof.
  intros Hv Hsm. apply valid_input_spec in Hv as (HV & Hs & He).
  apply small_weights_spec in Hsm as [Hb Hu].
  apply (improving_negative_cycle V edges source (max_abs_weight edges)
           (Z.to_nat (V - 1) * length edges)); auto.
  - weight_side Hb.
  - weight_side Hb.
  - weight_side Hb.
  - apply floor_by_steps; assumption.
Qed.

Lemma negative_walk_flag V edges source x c :
  valid_input V edges source = true -> small_weights V edges = true ->
  reachable edges source x -> walk edges x c x -> weight c < 0 ->
  existsb (improving (final_dist V edges source)) edges = true.
Proof.
  intros Hv Hsm. apply valid_input_spec in Hv as (HV & Hs & He).
  apply small_weights_spec in Hsm as [Hb Hu].
  apply (negative_walk_detected V edges source (max_abs_weight edges)
           (Z.to_nat (V - 1) * length edges)); auto.
  - weight_side Hb.
  - weight_side Hb.
  - weight_side Hb.
  - apply floor_by_steps; assumption.
Qed.

Lemma small_weights_add_exact V edges source u v w du :
  valid_input V edges source = true -> small_weights V edges = true ->
  In (u, v, w) edges -> index (final_dist V edges source) u = Some du ->
  du <> INF -> add32 du w = du + w.
Proof.
  intros Hv Hsm. apply valid_input_spec in Hv as (HV & Hs & He).
  apply small_weights_spec in Hsm as [Hb Hu].
  apply (final_add_exact V edges source (max_abs_weight edges)
           (Z.to_nat (V - 1) * length edges)); auto.
  - weight_side Hb.
  - weight_side Hb.
  - weight_side Hb.
  - apply floor_by_steps; assumption.
Qed.

Lemma no_negative_cycle_no_flag V edges source :
  valid_input V edges source = true -> below_sentinel V edges = true ->
  ~ negative_cycle edges source ->
  existsb (improving (final_dist V edges source)) edges = false.
Proof.
  intros Hv Hb Hno. apply valid_input_spec in Hv as (HV & Hs & He).
  destruct (existsb (improving (final_dist V edges source)) edges) eqn:Hex;
    [|reflexivity].
  exfalso. apply Hno.
  apply (improving_negative_cycle V edges source (max_abs_weight edges)
           (Z.to_nat (V - 1) * length edges)); auto.
  - weight_side Hb.
  - weight_side Hb.
  - weight_side Hb.
  - intros p x Hp _. eapply floor_by_cycles; eauto.
Qed.

Lemma existsb_improving d edges :
  existsb (improving d) edges = true <->
  exists u v w du dv, In (u, v, w) edges /\ index d u = Some du /\
    index d v = Some dv /\ du <> INF /\ add32 du w < dv.
Proof.
  rewrite existsb_exists. split.
  - intros ([[u v] w] & Hin & Hi). apply improving_true in Hi as (du & dv & H).
    exists u, v, w, du, dv. tauto.
  - intros (u & v & w & du & dv & Hin & H). exists (u, v, w). split; [exact Hin|].
    apply improving_true. exists du, dv. exact H.
Qed.

Lemma bellmanFord_returned V edges source d0 :
  valid_input V edges source = true ->
  returned (bellmanFord V edges source (call d0)) =
  Some (existsb (improving (final_dist V edges source)) edges,
        final_dist V edges source).
Proof. intros Hv. rewrite (bellmanFord_run _ _ _ _ Hv). reflexivity. Qed.

Lemma bellmanFord_assigns_first V edges source d1 d2 :
  0 <= V ->
  bellmanFord V edges source (call d1) = bellmanFord V edges source (call d2).
Proof.
  intros HV. unfold bellmanFord. unfold bind at 1 3. unfold vec_assign.
  destruct (decide (V < 0)); [lia|]. reflexivity.
Qed.

(** Without a negative cycle reachable from the source and with weights
    below the sentinel, the vector after the rounds holds the weight of a
    lightest walk for every reachable vertex, and 0 for the source. *)
Lemma final_dist_shortest V edges source x :
  valid_input V edges source = true -> below_sentinel V edges = true ->
  ~ negative_cycle edges source -> reachable edges source x ->
  exists dx p,
    index (final_dist V edges source) x = Some dx /\
    walk edges source p x /\ weight p = dx /\
    (forall q, walk edges source q x -> dx <= weight q) /\
    (x = source -> dx = 0).
Proof.
  intros Hv Hb Hno Hx. apply valid_input_spec in Hv as (HV & Hs & He).
  set (N := (Z.to_nat (V - 1) * length edges)%nat).
  assert (forall p y, walk edges source p y -> (length p <= N)%nat ->
                      INT_MIN <= weight p - max_abs_weight edges) as Hfloor
    by (intros p y Hp _; eapply floor_by_cycles; eauto).
  pose proof (max_abs_weight_bound edges) as HW.
  pose proof (max_abs_weight_nonneg edges) as HW0.
  assert (max_abs_weight edges * V < INF) as Hsent
    by (unfold below_sentinel in Hb; apply Z.ltb_lt in Hb; exact Hb).
  destruct (reachable_finite V edges source _ N HV Hs He HW HW0 Hsent (le_n _)
              Hfloor x Hx)
    as (dx & Hdx & Hlt).
  destruct (final_sound V edges source _ N HV Hs HW HW0 Hsent (le_n _) Hfloor)
    as [_ Hsound].
  destruct (Hsound x dx Hdx) as [->|(_ & p & Hp & Hw & _)]; [lia|].
  assert (forall q, walk edges source q x -> dx <= weight q) as Hmin.
  { intros q Hq.
    destruct (walk_simplify edges _ _ _ Hq) as (q' & Hq' & Hnd & [Hle|Hc]);
      [|contradiction].
    pose proof (simple_walk_short edges V _ _ _ He Hs Hq' Hnd) as Hlen.
    destruct (final_complete V edges source _ N HV Hs He HW HW0 Hsent (le_n _) Hfloor
                q' x Hq') as (dx' & Hdx' & Hle'); [lia|].
    rewrite Hdx in Hdx'. injection Hdx' as <-. lia. }
  exists dx, p. repeat split; auto.
  intros ->. pose proof (Hmin [] (walk_nil _ _)) as H0. simpl in H0.
  destruct (walk_simplify edges _ _ _ Hp) as (p' & Hp' & Hnd & [Hle|Hc]);
    [|contradiction].
  destruct Hp' as [|p' u v w Hp' Hin]; [simpl in Hle; lia|].
  exfalso. unfold vertices in Hnd. simpl in Hnd.
  apply NoDup_cons_iff in Hnd as [Hnotin _].
  apply Hnotin. apply in_or_app. right. left. reflexivity.
Qed.

(** The call as a whole in that case: no flag, and the distances of the
    reachable vertices are the weights of lightest walks. *)
Theorem bellmanFord_shortest_paths V edges source d0 :
  valid_input V edges source = true -> below_sentinel V edges = true ->
  ~ negative_cycle edges source ->
  exists d,
    returned (bellmanFord V edges source (call d0)) = Some (false, d) /\
    forall x, reachable edges source x ->
      exists dx p, index d x = Some dx /\ walk edges source p x /\
                   weight p = dx /\
                   forall q, walk edges source q x -> dx <= weight q.
Proof.
  intros Hv Hb Hno. exists (final_dist V edges source). split.
  - rewrite (bellmanFord_returned _ _ _ _ Hv).
    rewrite (no_negative_cycle_no_flag V edges source Hv Hb Hno). reflexivity.
  - intros x Hx.
    destruct (final_dist_shortest V edges source x Hv Hb Hno Hx)
      as (dx & p & H1 & H2 & H3 & H4 & _).
    exists dx, p. auto.
Qed.

(** ** Facts on the concrete graphs *)

Lemma test3_walks p x : walk edges_test3 0 p x -> x = 0 \/ x = 1.
Proof.
  intros H. induction H as [|p u v w H IH Hin]; [left; reflexivity|].
  simpl in Hin. destruct Hin as [Heq|[Heq|[]]]; injection Heq as <- <- <-; lia.
Qed.

Lemma test3_unreachable : ~ reachable edges_test3 0 2.
Proof. intros [p Hp]. apply test3_walks in Hp. lia. Qed.



(** The remaining cases of [testBellmanFord]. *)
Example test_case_2 :
  exists d, returned (bellmanFord 3 edges_test2 0 (call [])) = Some (true, d).
Proof. eexists. vm_compute. reflexivity. Qed.

Example test_case_3 :
  returned (bellmanFord 4 edges_test3 0 (call [])) = Some (false, [0; 1; INF; INF]).
Proof. vm_compute. reflexivity. Qed.

Example test_case_4 :
  returned (bellmanFord 3 edges_test4 0 (call [])) = Some (false, [0; 1; 2]).
Proof. vm_compute. reflexivity. Qed.

Example test_case_6 :
  returned (bellmanFord 7 edges_test6 0 (call [])) =
  Some (false, [0; 1; 2; 4; 6; 9; 8]).
Proof. vm_compute. reflexivity. Qed.

(** ** The claims *)

(** C1 (amended). On every valid input [bellmanFord] returns true if and
    only if, on the vector left by the V - 1 relaxation rounds, some edge
    (u, v, w) has [dist[u] != INF] and [dist[u] + w < dist[v]] (the sum taken
    as the code takes it). When moreover the weights are small
    ([small_weights]: max|w| * V < INF and max|w| * ((V-1) * E + 1) <= 2^31),
    this is equivalent to a negative-weight cycle reachable from the source,
    and every negative closed walk at a reachable vertex sets the flag. *)
Theorem bellmanFord_flag_iff_negative_cycle V edges source d0 :
  valid_input V edges source = true ->
  exists b d,
    returned (bellmanFord V edges source (call d0)) = Some (b, d) /\
    d = final_dist V edges source /\
    (b = true <->
     exists u v w du dv, In (u, v, w) edges /\ index d u = Some du /\
       index d v = Some dv /\ du <> INF /\ add32 du w < dv) /\
    (small_weights V edges = true ->
     (b = true <-> negative_cycle edges source) /\
     (forall x c, reachable edges source x -> walk edges x c x ->
                  weight c < 0 -> b = true)).
Proof.
  intros Hv. eexists. eexists. split; [apply bellmanFord_returned; exact Hv|].
  split; [reflexivity|]. split; [apply existsb_improving|].
  intros Hsm. split; [split|].
  - apply flag_negative_cycle; assumption.
  - intros (x & c & Hx & Hc & _ & Hneg). eapply negative_walk_flag; eassumption.
  - intros x c Hx Hc Hneg. eapply negative_walk_flag; eassumption.
Qed.

Lemma bellmanFord_flag_iff_negative_cycle_witness :
  valid_input 3 edges_test2 0 = true /\
  small_weights 3 edges_test2 = true /\
  negative_cycle edges_test2 0.
Proof.
  split; [reflexivity|]. split; [reflexivity|].
  destruct (bellmanFord_flag_iff_negative_cycle 3 edges_test2 0 [] eq_refl)
    as (b & d & Hrun & _ & _ & Hsm).
  destruct (Hsm eq_refl) as [Hiff _]. apply Hiff.
  vm_compute in Hrun. injection Hrun as Hb _. symmetry. exact Hb.
Defined.

(** The claim C1 as stated fails: the self-loop (1, 1, -1) is a negative
    cycle reachable from 0 over the edge (0, 1, 10^9), yet 0 + 10^9 is not
    below the sentinel, vertex 1 stays at it and the flag is false. *)
Lemma negative_cycle_behind_sentinel_missed :
  valid_input 2 edges_heavy_edge 0 = true /\
  negative_cycle edges_heavy_edge 0 /\
  returned (bellmanFord 2 edges_heavy_edge 0 (call [])) =
  Some (false, [0; 1000000000]).
Proof.
  split; [reflexivity|]. split; [|vm_compute; reflexivity].
  exists 1, [(1, 1, -1)]. split.
  - exists [(0, 1, 1000000000)]. constructor; [constructor|]. left. reflexivity.
  - split; [|split].
    + constructor; [constructor|]. right. left. reflexivity.
    + simpl. constructor; [intros []|constructor].
    + simpl. lia.
Qed.

(** C2. Scenario A (test case 1): no negative cycle, distances
    [0, -1, 2, -2, 1], whatever the caller's vector held. *)
Theorem bellmanFord_scenario_A d0 :
  returned (bellmanFord 5 edges_test1 0 (call d0)) =
  Some (false, [0; -1; 2; -2; 1]).
Proof. vm_compute. reflexivity. Qed.

(** C3 (amended). On a valid input on which [bellmanFord] returns false,
    every edge (u, v, w) with [dist[u] != INF] satisfies
    [dist[v] <= dist[u] + w] in the final vector when the sum is the code's
    wrapping [int] sum; with the exact sum this holds whenever [dist[u] + w]
    is representable in [int], and so for every edge when the weights are
    small ([small_weights]). *)
Theorem relaxed_fixed_point V edges source d0 d u v w du dv :
  valid_input V edges source = true ->
  returned (bellmanFord V edges source (call d0)) = Some (false, d) ->
  In (u, v, w) edges ->
  index d u = Some du -> index d v = Some dv -> du <> INF ->
  dv <= add32 du w /\
  (INT_MIN <= du + w <= INT_MAX -> dv <= du + w) /\
  (small_weights V edges = true -> dv <= du + w).
Proof.
  intros Hv Hrun Hin Hu Hdv Hne.
  rewrite (bellmanFord_returned _ _ _ _ Hv) in Hrun. injection Hrun as Hex <-.
  pose proof (existsb_false _ _ Hex _ Hin) as Hi.
  pose proof (improving_false _ _ _ _ _ _ Hu Hdv Hi Hne) as Hle.
  split; [exact Hle|]. split.
  - intros Hr. rewrite add32_exact in Hle; assumption.
  - intros Hsm.
    rewrite (small_weights_add_exact V edges source u v w du Hv Hsm Hin Hu Hne) in Hle.
    exact Hle.
Qed.

Lemma relaxed_fixed_point_witness :
  valid_input 5 edges_test1 0 = true /\
  returned (bellmanFord 5 edges_test1 0 (call [])) =
    Some (false, [0; -1; 2; -2; 1]) /\
  (-2 <= add32 1 (-3) /\
   (INT_MIN <= 1 + -3 <= INT_MAX -> -2 <= 1 + -3) /\
   (small_weights 5 edges_test1 = true -> -2 <= 1 + -3)).
Proof.
  split; [reflexivity|]. split; [vm_compute; reflexivity|].
  apply (relaxed_fixed_point 5 edges_test1 0 [] [0; -1; 2; -2; 1] 4 3 (-3) 1 (-2)).
  - reflexivity.
  - vm_compute. reflexivity.
  - simpl. tauto.
  - reflexivity.
  - reflexivity.
  - unfold INF. lia.
Defined.

(** The claim C3 as stated fails: the graph is a path without any cycle,
    the call returns false, and [dist[1] + w = -4 * 10^9] for the edge
    (1, 2, -2 * 10^9) is below [INT_MIN]; the code's sum wraps to 294967296,
    which is stored in [dist[2]] and is well above the exact sum. *)
Lemma relaxed_fixed_point_fails_on_underflow :
  valid_input 3 edges_underflow 0 = true /\
  returned (bellmanFord 3 edges_underflow 0 (call [])) =
    Some (false, [0; -2000000000; 294967296]) /\
  In (1, 2, -2000000000) edges_underflow /\
  index [0; -2000000000; 294967296] 1 = Some (-2000000000) /\
  index [0; -2000000000; 294967296] 2 = Some 294967296 /\
  -2000000000 <> INF /\
  ~ (294967296 <= -2000000000 + -2000000000).
Proof.
  split; [reflexivity|]. split; [vm_compute; reflexivity|].
  split; [right; left; reflexivity|]. split; [reflexivity|].
  split; [reflexivity|]. split; [unfold INF; lia|lia].
Qed.

(** C4. On a valid input a vertex [x] with no path from the source ends at
    the sentinel; no edge that passes the verification test has [x] as an
    endpoint; and dropping the edges at [x] changes neither the flag nor the
    distances. *)
Theorem unreachable_stays_sentinel V edges source d0 x :
  valid_input V edges source = true -> 0 <= x < V ->
  ~ reachable edges source x ->
  exists b d,
    returned (bellmanFord V edges source (call d0)) = Some (b, d) /\
    index d x = Some INF /\
    (forall u v w, In (u, v, w) edges ->
       improving d (u, v, w) = true -> u <> x /\ v <> x) /\
    returned (bellmanFord V (without x edges) source (call d0)) = Some (b, d).
Proof.
  intros Hv Hx Hun. pose proof Hv as Hv'.
  apply valid_input_spec in Hv' as (HV & Hs & He).
  pose proof (final_finite_reachable V edges source HV Hs) as Hfr.
  eexists. eexists. split; [apply bellmanFord_returned; exact Hv|].
  split; [|split].
  - destruct (index_in_vec _ _ (final_in_vec V edges source x Hx)) as [dx Hdx].
    rewrite Hdx. f_equal. destruct (Z.eq_dec dx INF) as [|Hne]; [assumption|].
    exfalso. apply Hun. exact (Hfr x dx Hdx Hne).
  - intros u v w Hin Hi.
    split; intros ->.
    + destruct (touches_idle edges source _ x (x, v, w) Hfr Hun Hin) as [Hf _].
      * unfold touches. rewrite Z.eqb_refl. reflexivity.
      * congruence.
    + destruct (touches_idle edges source _ x (u, x, w) Hfr Hun Hin) as [Hf _].
      * unfold touches. rewrite Z.eqb_refl. apply orb_true_r.
      * congruence.
  - assert (final_dist V (without x edges) source = final_dist V edges source) as Hfd.
    { unfold final_dist. apply (relax_rounds_without edges source x); [exact Hun|].
      apply init_finite_reachable; assumption. }
    rewrite (bellmanFord_returned _ _ _ _ (valid_input_without V edges source x Hv)).
    rewrite Hfd.
    rewrite (existsb_without edges source x edges _ Hun (incl_refl _) Hfr).
    reflexivity.
Qed.

Lemma unreachable_stays_sentinel_witness :
  valid_input 4 edges_test3 0 = true /\ 0 <= 2 < 4 /\
  ~ reachable edges_test3 0 2 /\
  exists b d,
    returned (bellmanFord 4 edges_test3 0 (call [])) = Some (b, d) /\
    index d 2 = Some INF /\
    (forall u v w, In (u, v, w) edges_test3 ->
       improving d (u, v, w) = true -> u <> 2 /\ v <> 2) /\
    returned (bellmanFord 4 (without 2 edges_test3) 0 (call [])) = Some (b, d).
Proof.
  split; [reflexivity|]. split; [lia|]. split; [exact test3_unreachable|].
  apply (unreachable_stays_sentinel 4 edges_test3 0 [] 2).
  - reflexivity.
  - lia.
  - exact test3_unreachable.
Defined.




(** C6 (amended). On a valid input with small weights ([small_weights]), a
    self-loop (u, u, w) with w < 0 at a vertex reachable from the source
    makes [bellmanFord] return true. *)
Theorem negative_self_loop_detected V edges source d0 u w :
  valid_input V edges source = true -> small_weights V edges = true ->
  In (u, u, w) edges -> w < 0 -> reachable edges source u ->
  returned (bellmanFord V edges source (call d0)) =
  Some (true, final_dist V edges source).
Proof.
  intros Hv Hsm Hin Hw Hu.
  rewrite (bellmanFord_returned _ _ _ _ Hv). f_equal. f_equal.
  apply (negative_walk_flag V edges source u [(u, u, w)]); auto.
  - constructor; [constructor|exact Hin].
  - simpl. lia.
Qed.

Lemma negative_self_loop_detected_witness :
  valid_input 2 edges_self_loop 0 = true /\
  small_weights 2 edges_self_loop = true /\
  In (1, 1, -1) edges_self_loop /\ -1 < 0 /\ reachable edges_self_loop 0 1 /\
  returned (bellmanFord 2 edges_self_loop 0 (call [])) =
  Some (true, final_dist 2 edges_self_loop 0).
Proof.
  assert (reachable edges_self_loop 0 1) as Hr.
  { exists [(0, 1, 1)]. constructor; [constructor|]. left. reflexivity. }
  split; [reflexivity|]. split; [reflexivity|].
  split; [right; left; reflexivity|]. split; [lia|]. split; [exact Hr|].
  apply (negative_self_loop_detected 2 edges_self_loop 0 [] 1 (-1)).
  - reflexivity.
  - reflexivity.
  - right. left. reflexivity.
  - lia.
  - exact Hr.
Defined.

(** The claim C6 as stated fails: vertex 2 is reachable from 0 and carries
    the self-loop (2, 2, -5), but the only path to it weighs exactly 10^9,
    so [dist[2]] stays at the sentinel and the flag is false. *)
Lemma negative_self_loop_behind_sentinel_missed :
  valid_input 3 edges_heavy_path 0 = true /\
  In (2, 2, -5) edges_heavy_path /\ -5 < 0 /\
  reachable edges_heavy_path 0 2 /\
  returned (bellmanFord 3 edges_heavy_path 0 (call [])) =
  Some (false, [0; 500000000; 1000000000]).
Proof.
  split; [reflexivity|]. split; [right; right; left; reflexivity|].
  split; [lia|]. split; [|vm_compute; reflexivity].
  exists [(1, 2, 500000000); (0, 1, 500000000)].
  constructor; [constructor; [constructor|]|].
  - left. reflexivity.
  - right. left. reflexivity.
Qed.

(** C7 (amended). The code has no input check of its own. A negative V
    makes [dist.assign] throw [std::length_error] before anything else has
    run, the caller's vector untouched; with V = 0, or with V > 0 and the
    source outside [0, V), the write [dist[source] = 0] is outside the
    vector, before any relaxation. In neither case is a result produced. *)
Theorem invalid_input_behaviour V edges source d0 :
  (V < 0 ->
   bellmanFord V edges source (call d0) = Fault length_error (call d0)) /\
  (0 <= V -> source < 0 \/ V <= source ->
   bellmanFord V edges source (call d0) =
   Fault out_of_bounds (call (replicate (Z.to_nat V) INF))).
Proof.
  split.
  - intros HV. unfold bellmanFord, bind, vec_assign.
    destruct (decide (V < 0)); [reflexivity|lia].
  - intros HV Hs. unfold bellmanFord. unfold bind at 1. unfold vec_assign.
    destruct (decide (V < 0)); [lia|]. unfold bind at 1. unfold vec_set.
    cbn [dist set_dist call]. unfold index.
    destruct (decide (0 <= source)) as [H0|]; [|reflexivity].
    rewrite lookup_ge_None_2; [reflexivity|]. rewrite length_replicate. lia.
Qed.

Lemma invalid_input_behaviour_witness :
  (-1 < 0 /\
   bellmanFord (-1) edges_test3 0 (call [7]) = Fault length_error (call [7])) /\
  (0 <= 1 /\ (1 < 0 \/ 1 <= 1) /\
   bellmanFord 1 [] 1 (call [7]) = Fault out_of_bounds (call [INF])).
Proof.
  split.
  - split; [lia|].
    apply (proj1 (invalid_input_behaviour (-1) edges_test3 0 [7])). lia.
  - split; [lia|]. split; [right; lia|].
    apply (proj2 (invalid_input_behaviour 1 [] 1 [7])); [lia|right; lia].
Defined.

(** The claim C7 as stated fails: with V = 0 no error is raised; the write
    [dist[0] = 0] falls outside the empty vector. *)
Lemma empty_graph_not_rejected :
  0 <= 0 /\
  bellmanFord 0 [] 0 (call []) = Fault out_of_bounds (call []) /\
  thrown (bellmanFord 0 [] 0 (call [])) = false.
Proof. split; [lia|]. split; reflexivity. Qed.

(** C8. Scenario E: V = 1 and no edges. No relaxation round runs, the
    trace holds the verification pass alone; the result is false with
    distances [0]. *)
Theorem bellmanFord_single_vertex d0 :
  bellmanFord 1 [] 0 (call d0) = Done false (Machine [0] [check_begin]).
Proof. reflexivity. Qed.

(** C9. On every valid input [bellmanFord] returns. Its trace is V - 1
    relaxation rounds, each over every edge in order, followed by one
    verification pass that stops at the first improving edge: V passes over
    the edge list in all. *)
Theorem bellmanFord_terminates_in_V_passes V edges source d0 :
  valid_input V edges source = true ->
  exists b m,
    bellmanFord V edges source (call d0) = Done b m /\
    trace m = rounds_trace (Z.to_nat (V - 1)) edges ++ check_trace (dist m) edges /\
    Z.of_nat (rounds (trace m)) = V - 1 /\ checks (trace m) = 1%nat /\
    Z.of_nat (rounds (trace m) + checks (trace m)) = V /\
    visits (trace m)
    = (Z.to_nat (V - 1) * length edges + examined (dist m) edges)%nat /\
    (examined (dist m) edges <= length edges)%nat /\
    (b = false -> examined (dist m) edges = length edges) /\
    (b = true -> (1 <= examined (dist m) edges)%nat).
Proof.
  intros Hv. pose proof Hv as Hv'. apply valid_input_spec in Hv' as (HV & _).
  eexists. eexists. split; [apply bellmanFord_run; exact Hv|].
  cbn [dist trace]. split; [reflexivity|].
  set (d := final_dist V edges source).
  pose proof (count_rounds_trace (Z.to_nat (V - 1)) edges) as (Hr & Hc & Hvis).
  pose proof (count_map_visit (firstn (examined d edges) edges)) as (Hr' & Hc' & Hvis').
  pose proof (examined_le d edges) as Hle.
  rewrite length_firstn in Hvis'.
  unfold check_trace. rewrite rounds_app, checks_app, visits_app.
  cbn [rounds checks visits]. rewrite Hr, Hc, Hvis, Hr', Hc', Hvis'.
  repeat split; try lia.
  - apply examined_all.
  - apply examined_some.
Qed.

Lemma bellmanFord_terminates_in_V_passes_witness :
  valid_input 5 edges_test1 0 = true /\
  exists b m,
    bellmanFord 5 edges_test1 0 (call []) = Done b m /\
    trace m = rounds_trace (Z.to_nat (5 - 1)) edges_test1
              ++ check_trace (dist m) edges_test1 /\
    Z.of_nat (rounds (trace m)) = 5 - 1 /\ checks (trace m) = 1%nat /\
    Z.of_nat (rounds (trace m) + checks (trace m)) = 5 /\
    visits (trace m)
    = (Z.to_nat (5 - 1) * length edges_test1 + examined (dist m) edges_test1)%nat /\
    (examined (dist m) edges_test1 <= length edges_test1)%nat /\
    (b = false -> examined (dist m) edges_test1 = length edges_test1) /\
    (b = true -> (1 <= examined (dist m) edges_test1)%nat).
Proof.
  split; [reflexivity|].
  apply (bellmanFord_terminates_in_V_passes 5 edges_test1 0 []). reflexivity.
Defined.

(** C10. On a valid input the outcome, flag and final vector, is the same
    whatever the caller's vector held on entry. *)
Theorem result_independent_of_incoming_dist V edges source d1 d2 :
  valid_input V edges source = true ->
  bellmanFord V edges source (call d1) = bellmanFord V edges source (call d2).
Proof.
  intros Hv. apply valid_input_spec in Hv as (HV & _).
  apply bellmanFord_assigns_first. lia.
Qed.

Lemma result_independent_of_incoming_dist_witness :
  valid_input 5 edges_test1 0 = true /\
  bellmanFord 5 edges_test1 0 (call []) =
  bellmanFord 5 edges_test1 0 (call [7; 7; 7]).
Proof.
  split; [reflexivity|].
  apply (result_independent_of_incoming_dist 5 edges_test1 0 [] [7; 7; 7]).
  reflexivity.
Defined.

(** ** Further properties of [bellmanFord] *)

Lemma index_lookup (d : list Z) (i : nat) : index d (Z.of_nat i) = d !! i.
Proof.
  unfold index. destruct (decide (0 <= Z.of_nat i)); [|lia].
  rewrite Nat2Z.id. reflexivity.
Qed.

Lemma wrap32_range z : INT_MIN <= wrap32 z <= INT_MAX.
Proof.
  unfold wrap32, INT_MIN, INT_MAX.
  pose proof (Z.mod_pos_bound (z + 2147483648) 4294967296). lia.
Qed.

(** Entries stay between [INT_MIN] and the sentinel. *)
Lemma relax_edge_bounded d e :
  (forall x dx, index d x = Some dx -> INT_MIN <= dx <= INF) ->
  forall x dx, index (relax_edge d e) x = Some dx -> INT_MIN <= dx <= INF.
Proof.
  destruct e as [[u v] w]. intros Hd x dx Hx.
  destruct (relax_edge_index d u v w x)
    as [Heq|(-> & du & dv & Hu & Hv & H1 & H2 & Hnew)].
  - rewrite Heq in Hx. eauto.
  - rewrite Hnew in Hx. injection Hx as <-.
    pose proof (wrap32_range (du + w)) as Hr. pose proof (Hd _ _ Hv) as Hdv.
    unfold add32 in *. lia.
Qed.

Lemma init_dist_bounded V source x dx :
  index (init_dist V source) x = Some dx -> INT_MIN <= dx <= INF.
Proof.
  unfold init_dist, index. destruct (decide (0 <= x)); [|discriminate].
  intros Hx. destruct (decide (Z.to_nat source = Z.to_nat x)) as [Heq|Hne].
  - rewrite Heq in Hx. pose proof (lookup_lt_Some _ _ _ Hx) as Hlt.
    rewrite length_insert in Hlt. rewrite list_lookup_insert_eq in Hx by exact Hlt.
    injection Hx as <-. unfold INT_MIN, INF. lia.
  - rewrite list_lookup_insert_ne in Hx by exact Hne.
    apply lookup_replicate in Hx as [-> _]. unfold INT_MIN, INF. lia.
Qed.

Lemma final_dist_bounded V edges source x dx :
  index (final_dist V edges source) x = Some dx -> INT_MIN <= dx <= INF.
Proof.
  revert x dx. unfold final_dist.
  apply (relax_rounds_ind
           (fun d => forall x dx, index d x = Some dx -> INT_MIN <= dx <= INF) edges).
  - intros d e _. apply relax_edge_bounded.
  - apply init_dist_bounded.
Qed.

Lemma relax_pass_cons e es d :
  relax_pass (e :: es) d = relax_pass es (relax_edge d e).
Proof. reflexivity. Qed.

(** A pass changes nothing exactly when no edge improves. *)
Lemma relax_edge_idle d e : improving d e = false -> relax_edge d e = d.
Proof.
  destruct e as [[u v] w]. unfold relax_edge. intros ->.
  destruct (index d u); reflexivity.
Qed.

Lemma relax_pass_idle es d :
  existsb (improving d) es = false -> relax_pass es d = d.
Proof.
  induction es as [|e es IH]; [reflexivity|]. simpl existsb.
  rewrite orb_false_iff. intros [He Hes].
  rewrite relax_pass_cons, (relax_edge_idle d e He). apply IH. exact Hes.
Qed.

Lemma relax_pass_changes es d :
  existsb (improving d) es = true -> relax_pass es d <> d.
Proof.
  induction es as [|e es IH]; [discriminate|]. simpl existsb.
  destruct (improving d e) eqn:He.
  - intros _ Heq. destruct e as [[u v] w].
    pose proof He as He'.
    apply improving_true in He' as (du & dv & Hu & Hv & Hne & Hlt).
    assert (index (relax_edge d (u, v, w)) v = Some (add32 du w)) as Hnew.
    { unfold relax_edge. rewrite Hu, He. apply index_insert_eq.
      eapply index_Some; eassumption. }
    destruct (relax_pass_mono es _ v _ Hnew) as (dv' & Hv' & Hle).
    rewrite relax_pass_cons in Heq. rewrite Heq in Hv'.
    rewrite Hv in Hv'. injection Hv' as <-. lia.
  - cbn [orb]. intros Hes. rewrite relax_pass_cons, (relax_edge_idle d e He).
    apply IH. exact Hes.
Qed.

Lemma relax_rounds_idle n es d : relax_pass es d = d -> relax_rounds n es d = d.
Proof.
  intros Heq. induction n as [|n IH]; [reflexivity|]. simpl. rewrite Heq. exact IH.
Qed.

Lemma relax_rounds_nil n d : relax_rounds n [] d = d.
Proof. apply relax_rounds_idle. reflexivity. Qed.

Lemma no_flag_no_negative_cycle V edges source :
  valid_input V edges source = true -> small_weights V edges = true ->
  existsb (improving (final_dist V edges source)) edges = false ->
  ~ negative_cycle edges source.
Proof.
  intros Hv Hsm Hex (x & c & Hx & Hc & _ & Hneg).
  rewrite (negative_walk_flag V edges source x c Hv Hsm Hx Hc Hneg) in Hex.
  discriminate.
Qed.

Lemma walk_same_edges edges edges' a p b :
  (forall e, In e edges <-> In e edges') ->
  walk edges a p b -> walk edges' a p b.
Proof.
  intros Hsame H. induction H as [|p u v w H IH Hin]; constructor; [exact IH|].
  apply Hsame. exact Hin.
Qed.

(** X1. When no negative cycle is detected (and the weights are small), the
    vector holds the shortest distances: for a reachable vertex the weight of
    a lightest walk from the source, for the others the sentinel. *)
Theorem undetected_distances_shortest V edges source d0 d x :
  valid_input V edges source = true -> small_weights V edges = true ->
  returned (bellmanFord V edges source (call d0)) = Some (false, d) ->
  0 <= x < V ->
  (reachable edges source x ->
   exists dx p, index d x = Some dx /\ dx < INF /\
                walk edges source p x /\ weight p = dx /\
                forall q, walk edges source q x -> dx <= weight q) /\
  (~ reachable edges source x -> index d x = Some INF).
Proof.
  intros Hv Hsm Hrun Hx.
  rewrite (bellmanFord_returned _ _ _ _ Hv) in Hrun. injection Hrun as Hex <-.
  pose proof (no_flag_no_negative_cycle V edges source Hv Hsm Hex) as Hno.
  pose proof Hsm as Hsm'. apply small_weights_spec in Hsm' as [Hb _].
  pose proof Hv as Hv'. apply valid_input_spec in Hv' as (HV & Hs & He).
  split.
  - intros Hr.
    destruct (final_dist_shortest V edges source x Hv Hb Hno Hr)
      as (dx & p & H1 & H2 & H3 & H4 & _).
    exists dx, p. repeat split; auto.
    destruct (Z.eq_dec dx INF) as [->|Hne].
    + exfalso.
      destruct (walk_simplify edges _ _ _ H2) as (q & Hq & Hnd & [Hle|Hc]);
        [|contradiction].
      pose proof (simple_walk_short edges V _ _ _ He Hs Hq Hnd) as Hlen.
      pose proof (weight_bound edges _ _ _ _ (max_abs_weight_bound edges) Hq) as Hw.
      pose proof (max_abs_weight_nonneg edges) as H0.
      unfold below_sentinel in Hb. apply Z.ltb_lt in Hb.
      assert (Z.of_nat (length q) * max_abs_weight edges
              <= V * max_abs_weight edges) as Hmul
        by (apply Z.mul_le_mono_nonneg_r; lia).
      pose proof (H4 q Hq). lia.
    + pose proof (final_dist_bounded V edges source x dx H1). lia.
  - intros Hun.
    destruct (index_in_vec _ _ (final_in_vec V edges source x Hx)) as [dx Hdx].
    rewrite Hdx. f_equal. destruct (Z.eq_dec dx INF) as [|Hne]; [assumption|].
    exfalso. apply Hun.
    exact (final_finite_reachable V edges source HV Hs x dx Hdx Hne).
Qed.

(** X2. When no negative cycle is detected (and the weights are small), the
    source is at distance 0. *)
Theorem undetected_source_zero V edges source d0 d :
  valid_input V edges source = true -> small_weights V edges = true ->
  returned (bellmanFord V edges source (call d0)) = Some (false, d) ->
  index d source = Some 0.
Proof.
  intros Hv Hsm Hrun.
  rewrite (bellmanFord_returned _ _ _ _ Hv) in Hrun. injection Hrun as Hex <-.
  pose proof (no_flag_no_negative_cycle V edges source Hv Hsm Hex) as Hno.
  apply small_weights_spec in Hsm as [Hb _].
  destruct (final_dist_shortest V edges source source Hv Hb Hno (reachable_refl _ _))
    as (dx & p & H1 & _ & _ & _ & H0).
  rewrite H1, (H0 eq_refl). reflexivity.
Qed.

(** X3. On every valid input, whatever the weights: the vector returned has V
    entries, none above the sentinel or below [INT_MIN], and the entry of the
    source is at most 0. *)
Theorem returned_vector_shape V edges source d0 :
  valid_input V edges source = true ->
  exists b d,
    returned (bellmanFord V edges source (call d0)) = Some (b, d) /\
    Z.of_nat (length d) = V /\
    (forall x dx, index d x = Some dx -> INT_MIN <= dx <= INF) /\
    (exists ds, index d source = Some ds /\ ds <= 0).
Proof.
  intros Hv. pose proof Hv as Hv'. apply valid_input_spec in Hv' as (HV & Hs & _).
  eexists. eexists. split; [apply bellmanFord_returned; exact Hv|].
  split; [rewrite length_final_dist; lia|]. split.
  - apply final_dist_bounded.
  - apply final_source. exact Hs.
Qed.

(** X4. The flag is false exactly when one more relaxation round would leave
    the returned vector as it is; then no number of further rounds changes
    it. *)
Theorem flag_false_iff_stable V edges source d0 :
  valid_input V edges source = true ->
  exists b d,
    returned (bellmanFord V edges source (call d0)) = Some (b, d) /\
    (b = false <-> relax_pass edges d = d) /\
    (b = false -> forall n, relax_rounds n edges d = d).
Proof.
  intros Hv. eexists. eexists. split; [apply bellmanFord_returned; exact Hv|].
  set (d := final_dist V edges source).
  assert (existsb (improving d) edges = false <-> relax_pass edges d = d) as Hiff.
  { split; [apply relax_pass_idle|].
    intros Heq. destruct (existsb (improving d) edges) eqn:Hex; [|reflexivity].
    exfalso. exact (relax_pass_changes edges d Hex Heq). }
  split; [exact Hiff|].
  intros Hb n. apply relax_rounds_idle. apply Hiff. exact Hb.
Qed.

(** X5. With small weights, also when a negative cycle is reported: every entry
    other than the sentinel is the weight of a walk from the source of at
    most (V - 1) * E edges, and no walk of at most V - 1 edges is lighter
    than the entry of its end. *)
Theorem entries_are_walk_weights V edges source d0 :
  valid_input V edges source = true -> small_weights V edges = true ->
  exists b d,
    returned (bellmanFord V edges source (call d0)) = Some (b, d) /\
    (forall x dx, index d x = Some dx -> dx <> INF ->
       exists p, walk edges source p x /\ weight p = dx /\
                 (length p <= Z.to_nat (V - 1) * length edges)%nat) /\
    (forall p x, walk edges source p x -> Z.of_nat (length p) <= V - 1 ->
       exists dx, index d x = Some dx /\ dx <= weight p).
Proof.
  intros Hv Hsm. pose proof Hv as Hv'.
  apply valid_input_spec in Hv' as (HV & Hs & He).
  apply small_weights_spec in Hsm as [Hb Hu].
  pose proof (max_abs_weight_bound edges) as HW.
  pose proof (max_abs_weight_nonneg edges) as HW0.
  assert (max_abs_weight edges * V < INF) as Hsent
    by (unfold below_sentinel in Hb; apply Z.ltb_lt in Hb; exact Hb).
  pose proof (floor_by_steps V edges source HV Hu) as Hfloor.
  eexists. eexists. split; [apply bellmanFord_returned; exact Hv|]. split.
  - intros x dx Hx Hne.
    destruct (final_sound V edges source _ _ HV Hs HW HW0 Hsent (le_n _) Hfloor)
      as [_ Hsound].
    destruct (Hsound x dx Hx) as [->|(_ & p & Hp & Hw & Hlen)]; [congruence|].
    exists p. auto.
  - intros p x Hp Hlen.
    apply (final_complete V edges source _ _ HV Hs He HW HW0 Hsent (le_n _) Hfloor
             p x Hp).
    lia.
Qed.

(** X6. With an empty edge list nothing is relaxed: the result is false, the
    source at 0 and every other vertex at the sentinel. *)
Theorem no_edges_result V source d0 :
  0 < V -> 0 <= source < V ->
  returned (bellmanFord V [] source (call d0)) = Some (false, init_dist V source) /\
  forall x, 0 <= x < V ->
    index (init_dist V source) x = Some (if decide (x = source) then 0 else INF).
Proof.
  intros HV Hs. split.
  - rewrite bellmanFord_returned.
    + unfold final_dist. rewrite relax_rounds_nil. reflexivity.
    + apply valid_input_spec. repeat split; try lia; destruct H.
  - intros x Hx. apply index_init_dist; assumption.
Qed.

(** X7. With small weights the outcome does not depend on the order of the
    edges or on repeated edges: two edge lists with the same edges give the
    same flag, and when that is false the same distances. *)
Theorem edge_order_irrelevant V edges edges' source d0 :
  valid_input V edges source = true ->
  small_weights V edges = true -> small_weights V edges' = true ->
  (forall e, In e edges <-> In e edges') ->
  exists b d d',
    returned (bellmanFord V edges source (call d0)) = Some (b, d) /\
    returned (bellmanFord V edges' source (call d0)) = Some (b, d') /\
    (b = false -> d = d').
Proof.
  intros Hv Hsm Hsm' Hsame.
  assert (valid_input V edges' source = true) as Hv'.
  { apply valid_input_spec in Hv as (HV & Hs & He). apply valid_input_spec.
    repeat split; try lia; apply (He u v w); apply Hsame; exact H. }
  assert (forall e, In e edges' <-> In e edges) as Hsame'
    by (intros e; symmetry; apply Hsame).
  assert (negative_cycle edges source <-> negative_cycle edges' source) as Hcyc.
  { split; intros (x & c & [p Hp] & Hc & Hnd & Hneg); exists x, c.
    - split; [exists p; eapply walk_same_edges; eauto|].
      split; [eapply walk_same_edges; eauto|auto].
    - split; [exists p; eapply walk_same_edges; eauto|].
      split; [eapply walk_same_edges; eauto|auto]. }
  set (b := existsb (improving (final_dist V edges source)) edges).
  set (b' := existsb (improving (final_dist V edges' source)) edges').
  assert (b = b') as Hbb.
  { destruct b eqn:Hb; destruct b' eqn:Hb'; try reflexivity; exfalso.
    - apply (no_flag_no_negative_cycle V edges' source Hv' Hsm' Hb').
      apply Hcyc. apply (flag_negative_cycle V edges source Hv Hsm Hb).
    - apply (no_flag_no_negative_cycle V edges source Hv Hsm Hb).
      apply Hcyc. apply (flag_negative_cycle V edges' source Hv' Hsm' Hb'). }
  exists b, (final_dist V edges source), (final_dist V edges' source).
  split; [apply bellmanFord_returned; exact Hv|].
  split; [rewrite Hbb; apply bellmanFord_returned; exact Hv'|].
  intros Hfalse.
  assert (b' = false) as Hfalse' by congruence.
  pose proof (no_flag_no_negative_cycle V edges source Hv Hsm Hfalse) as Hno.
  pose proof (no_flag_no_negative_cycle V edges' source Hv' Hsm' Hfalse') as Hno'.
  pose proof Hsm as Hs1. apply small_weights_spec in Hs1 as [Hbs _].
  pose proof Hsm' as Hs2. apply small_weights_spec in Hs2 as [Hbs' _].
  pose proof Hv as Hvs. apply valid_input_spec in Hvs as (HV & Hs & He).
  pose proof Hv' as Hvs'. apply valid_input_spec in Hvs' as (_ & _ & He').
  apply list_eq. intros i. rewrite <- !index_lookup.
  destruct (decide (Z.of_nat i < V)) as [Hi|Hi].
  - destruct (index_in_vec _ _ (final_in_vec V edges source (Z.of_nat i) ltac:(lia)))
      as [dx Hdx].
    destruct (index_in_vec _ _ (final_in_vec V edges' source (Z.of_nat i) ltac:(lia)))
      as [dx' Hdx'].
    rewrite Hdx, Hdx'. f_equal.
    assert (forall E E' a a',
              (forall e, In e E <-> In e E') ->
              valid_input V E source = true -> below_sentinel V E = true ->
              ~ negative_cycle E source ->
              valid_input V E' source = true -> below_sentinel V E' = true ->
              ~ negative_cycle E' source ->
              index (final_dist V E source) (Z.of_nat i) = Some a ->
              index (final_dist V E' source) (Z.of_nat i) = Some a' ->
              a <> INF -> a' <= a) as Hhalf.
    { intros E E' a a' HEE HvE HbE HnoE HvE' HbE' HnoE' Ha Ha' Hne.
      pose proof HvE as HvE2. apply valid_input_spec in HvE2 as (HVE & HsE & _).
      pose proof (final_finite_reachable V E source HVE HsE _ _ Ha Hne) as [p Hp].
      destruct (final_dist_shortest V E source _ HvE HbE HnoE (ex_intro _ p Hp))
        as (x1 & p1 & Hx1 & Hp1 & Hw1 & _ & _).
      assert (reachable E' source (Z.of_nat i)) as Hr'
        by (exists p1; eapply walk_same_edges; eauto).
      destruct (final_dist_shortest V E' source _ HvE' HbE' HnoE' Hr')
        as (x2 & p2 & Hx2 & _ & _ & Hmin2 & _).
      rewrite Ha in Hx1. injection Hx1 as <-.
      rewrite Ha' in Hx2. injection Hx2 as <-.
      pose proof (Hmin2 p1 (walk_same_edges E E' _ _ _ HEE Hp1)). lia. }
    pose proof (final_dist_bounded V edges source _ _ Hdx) as Hr.
    pose proof (final_dist_bounded V edges' source _ _ Hdx') as Hr'.
    destruct (Z.eq_dec dx INF) as [->|Hne]; destruct (Z.eq_dec dx' INF) as [->|Hne'];
      try reflexivity.
    + pose proof (Hhalf edges' edges dx' INF Hsame' Hv' Hbs' Hno' Hv Hbs Hno Hdx' Hdx Hne').
      lia.
    + pose proof (Hhalf edges edges' dx INF Hsame Hv Hbs Hno Hv' Hbs' Hno' Hdx Hdx' Hne).
      lia.
    + pose proof (Hhalf edges edges' dx dx' Hsame Hv Hbs Hno Hv' Hbs' Hno' Hdx Hdx' Hne).
      pose proof (Hhalf edges' edges dx' dx Hsame' Hv' Hbs' Hno' Hv Hbs Hno Hdx' Hdx Hne').
      lia.
  - rewrite !index_lookup.
    rewrite !lookup_ge_None_2; [reflexivity| |]; rewrite length_final_dist; lia.
Qed.

(** ** Edges that leave the vector *)

Lemma index_None d i : ~ in_vec d i -> index d i = None.
Proof.
  intros Hn. destruct (index d i) as [x|] eqn:Hx; [|reflexivity].
  exfalso. apply Hn. eapply index_Some. exact Hx.
Qed.

(** The loop body on any edge and any state. *)
Lemma relax_spec m u v w :
  relax (u, v, w) m =
  let m1 := Machine (dist m) (trace m ++ [visit (u, v, w)]) in
  match index (dist m) u with
  | None => Fault out_of_bounds m1
  | Some du =>
      if du =? INF then Done tt m1
      else match index (dist m) v with
           | None => Fault out_of_bounds m1
           | Some _ =>
               Done tt (Machine (relax_edge (dist m) (u, v, w))
                                (trace m ++ [visit (u, v, w)]))
           end
  end.
Proof.
  unfold relax. unfold bind at 1. unfold emit. unfold bind at 1.
  unfold improves. unfold bind at 1. unfold vec_get at 1. cbn [dist].
  unfold relax_edge, improving.
  destruct (index (dist m) u) as [du|] eqn:Hu; [|reflexivity].
  destruct (du =? INF) eqn:Hinf; [reflexivity|].
  unfold bind at 1. unfold vec_get at 1. cbn [dist]. rewrite Hu.
  unfold bind at 1. unfold vec_get at 1. cbn [dist].
  destruct (index (dist m) v) as [dv|] eqn:Hv; [|reflexivity].
  unfold ret. cbn [negb andb].
  destruct (add32 du w <? dv); [|reflexivity].
  unfold bind, vec_get, vec_set. cbn [dist]. rewrite Hu. cbn [dist]. rewrite Hv.
  reflexivity.
Qed.

Lemma relax_run_harmless m e :
  harmless (dist m) e ->
  relax e m = Done tt (Machine (relax_edge (dist m) e) (trace m ++ [visit e])).
Proof.
  destruct e as [[u v] w]. intros [Hu Hv]. rewrite relax_spec. cbn zeta.
  destruct (index_in_vec _ _ Hu) as [du Hdu]. rewrite Hdu.
  destruct (du =? INF) eqn:Hinf.
  - unfold relax_edge, improving. rewrite Hdu, Hinf. cbn [negb andb].
    destruct (index (dist m) v); reflexivity.
  - destruct Hv as [Hv|Hv].
    + destruct (index_in_vec _ _ Hv) as [dv Hdv]. rewrite Hdv. reflexivity.
    + rewrite Hdu in Hv. injection Hv as ->. rewrite Z.eqb_refl in Hinf. discriminate.
Qed.

Lemma improves_run_harmless m e :
  harmless (dist m) e -> improves e m = Done (improving (dist m) e) m.
Proof.
  destruct e as [[u v] w]. intros [Hu Hv].
  destruct (index_in_vec _ _ Hu) as [du Hdu].
  unfold improves, improving, bind, vec_get, ret. rewrite Hdu.
  destruct (du =? INF) eqn:Hinf.
  - cbn [negb andb]. destruct (index (dist m) v); reflexivity.
  - rewrite Hdu. destruct Hv as [Hv|Hv].
    + destruct (index_in_vec _ _ Hv) as [dv Hdv]. rewrite Hdv. reflexivity.
    + rewrite Hdu in Hv. injection Hv as ->. rewrite Z.eqb_refl in Hinf. discriminate.
Qed.

Section Harmless.
Variables (P : list Z -> Prop) (es : list edge).
Hypothesis Hstep : forall d e, In e es -> P d -> P (relax_edge d e).
Hypothesis Hsafe : forall d e, In e es -> P d -> harmless d e.

Lemma for_each_run_inv l m :
  incl l es -> P (dist m) ->
  for_each l relax m =
  Done tt (Machine (relax_pass l (dist m)) (trace m ++ map visit l)).
Proof.
  revert m. induction l as [|e l IH]; intros m Hl Hm.
  - simpl. unfold ret. rewrite app_nil_r. destruct m; reflexivity.
  - assert (In e es) as He by (apply Hl; left; reflexivity).
    cbn [for_each]. unfold bind. rewrite relax_run_harmless by (apply Hsafe; assumption).
    rewrite IH; cbn [dist trace].
    + rewrite <- app_assoc. reflexivity.
    + intros a Ha. apply Hl. right. exact Ha.
    + apply Hstep; assumption.
Qed.

Lemma relax_pass_inv l d : incl l es -> P d -> P (relax_pass l d).
Proof.
  revert d. induction l as [|e l IH]; intros d Hl Hd; [exact Hd|].
  rewrite relax_pass_cons. apply IH.
  - intros a Ha. apply Hl. right. exact Ha.
  - apply Hstep; [apply Hl; left; reflexivity|exact Hd].
Qed.

Lemma repeat_loop_run_inv n m :
  P (dist m) ->
  repeat_loop n (emit round_begin ;; for_each es relax) m =
  Done tt (Machine (relax_rounds n es (dist m)) (trace m ++ rounds_trace n es)).
Proof.
  revert m. induction n as [|n IH]; intros m Hm.
  - simpl. unfold ret. rewrite app_nil_r. destruct m; reflexivity.
  - cbn [repeat_loop]. unfold bind at 1. unfold bind at 1. unfold emit.
    rewrite for_each_run_inv; cbn [dist trace]; [|apply incl_refl|exact Hm].
    rewrite IH; cbn [dist trace].
    + cbn [rounds_trace relax_rounds]. rewrite <- !app_assoc. reflexivity.
    + apply relax_pass_inv; [apply incl_refl|exact Hm].
Qed.

Lemma relax_rounds_inv n d : P d -> P (relax_rounds n es d).
Proof.
  revert d. induction n as [|n IH]; intros d Hd; [exact Hd|].
  cbn [relax_rounds]. apply IH. apply relax_pass_inv; [apply incl_refl|exact Hd].
Qed.

Lemma verify_run_inv l m :
  incl l es -> P (dist m) ->
  verify l m =
  Done (existsb (improving (dist m)) l)
       (Machine (dist m) (trace m ++ map visit (firstn (examined (dist m) l) l))).
Proof.
  revert m. induction l as [|e l IH]; intros m Hl Hm.
  - simpl. unfold ret. rewrite app_nil_r. destruct m; reflexivity.
  - assert (In e es) as He by (apply Hl; left; reflexivity).
    cbn [verify]. unfold bind at 1. unfold emit. unfold bind at 1.
    rewrite improves_run_harmless by (apply Hsafe; assumption).
    cbn [dist trace existsb examined].
    destruct (improving (dist m) e).
    + reflexivity.
    + rewrite IH; cbn [dist trace orb firstn map].
      * rewrite <- app_assoc. reflexivity.
      * intros a Ha. apply Hl. right. exact Ha.
      * exact Hm.
Qed.
End Harmless.

(** An edge with an endpoint outside the vector never improves. *)
Lemma improving_out_of_range V d e :
  length d = Z.to_nat V -> endpoints_ok V e = false -> improving d e = false.
Proof.
  destruct e as [[u v] w]. intros Hl Hok. unfold improving.
  destruct (index d u) as [du|] eqn:Hu; [|reflexivity].
  destruct (index d v) as [dv|] eqn:Hv; [|reflexivity].
  apply index_Some in Hu. apply index_Some in Hv. unfold in_vec in *.
  unfold endpoints_ok in Hok. rewrite Hl in *.
  rewrite !andb_false_iff, !Z.leb_gt, !Z.ltb_ge in Hok. lia.
Qed.

Lemma relax_pass_filter V es d :
  length d = Z.to_nat V ->
  relax_pass (List.filter (endpoints_ok V) es) d = relax_pass es d.
Proof.
  revert d. induction es as [|e es IH]; intros d Hl; [reflexivity|].
  cbn [List.filter]. destruct (endpoints_ok V e) eqn:Hok.
  - rewrite !relax_pass_cons. apply IH. rewrite length_relax_edge. exact Hl.
  - rewrite relax_pass_cons.
    rewrite (relax_edge_idle d e (improving_out_of_range V d e Hl Hok)).
    apply IH. exact Hl.
Qed.

Lemma relax_rounds_filter V n es d :
  length d = Z.to_nat V ->
  relax_rounds n (List.filter (endpoints_ok V) es) d = relax_rounds n es d.
Proof.
  revert d. induction n as [|n IH]; intros d Hl; [reflexivity|].
  cbn [relax_rounds]. rewrite (relax_pass_filter V es d Hl).
  apply IH. rewrite length_relax_pass. exact Hl.
Qed.

Lemma existsb_filter V es d :
  length d = Z.to_nat V ->
  existsb (improving d) (List.filter (endpoints_ok V) es) = existsb (improving d) es.
Proof.
  intros Hl. induction es as [|e es IH]; [reflexivity|].
  cbn [List.filter existsb]. destruct (endpoints_ok V e) eqn:Hok.
  - cbn [existsb]. rewrite IH. reflexivity.
  - rewrite (improving_out_of_range V d e Hl Hok). exact IH.
Qed.

(** The call when every edge is harmless along the run. *)
Lemma bellmanFord_run_inv V edges source d0 :
  0 < V -> 0 <= source < V ->
  (forall u v w, In (u, v, w) edges ->
     0 <= u < V /\ (0 <= v < V \/ ~ reachable edges source u)) ->
  bellmanFord V edges source (call d0) =
  Done (existsb (improving (final_dist V edges source)) edges)
       (Machine (final_dist V edges source)
                (rounds_trace (Z.to_nat (V - 1)) edges
                 ++ check_trace (final_dist V edges source) edges)).
Proof.
  intros HV Hs He.
  set (P := fun d => length d = Z.to_nat V /\ finite_reachable edges source d).
  assert (forall d e, In e edges -> P d -> P (relax_edge d e)) as Hstep.
  { intros d e Hin [Hl Hfr]. split; [rewrite length_relax_edge; exact Hl|].
    apply relax_edge_finite_reachable; assumption. }
  assert (forall d e, In e edges -> P d -> harmless d e) as Hsafe.
  { intros d [[u v] w] Hin [Hl Hfr]. destruct (He u v w Hin) as [Hu Hv].
    assert (in_vec d u) as Hinu by (unfold in_vec; rewrite Hl; lia).
    split; [exact Hinu|]. destruct Hv as [Hv|Hv].
    - left. unfold in_vec. rewrite Hl. lia.
    - right. destruct (index_in_vec _ _ Hinu) as [du Hdu]. rewrite Hdu. f_equal.
      destruct (Z.eq_dec du INF) as [|Hne]; [assumption|].
      exfalso. apply Hv. exact (Hfr u du Hdu Hne). }
  assert (P (init_dist V source)) as Hinit.
  { split; [apply length_init_dist|apply init_finite_reachable; assumption]. }
  unfold bellmanFord. unfold bind at 1. unfold vec_assign.
  destruct (decide (V < 0)); [lia|].
  unfold bind at 1. unfold vec_set. cbn [dist set_dist call trace].
  destruct (index_in_vec (replicate (Z.to_nat V) INF) source) as [x Hx].
  { unfold in_vec. rewrite length_replicate. lia. }
  rewrite Hx. fold (init_dist V source).
  unfold bind at 1.
  rewrite (repeat_loop_run_inv P edges Hstep Hsafe); cbn [dist trace]; [|exact Hinit].
  unfold bind at 1. unfold emit. cbn [dist trace].
  rewrite (verify_run_inv P edges Hsafe); cbn [dist trace].
  - unfold check_trace, final_dist. rewrite <- app_assoc. reflexivity.
  - apply incl_refl.
  - apply (relax_rounds_inv P edges Hstep). exact Hinit.
Qed.

(** X8. An edge that points outside [0, V) is not noticed when its tail cannot
    be reached from the source: the test stops at [dist[u] != INF] and
    [dist[v]] is never accessed. The call then returns what it returns
    without the out-of-range edges. *)
Theorem unreachable_tails_shield_bad_heads V edges source d0 :
  0 < V -> 0 <= source < V ->
  (forall u v w, In (u, v, w) edges ->
     0 <= u < V /\ (0 <= v < V \/ ~ reachable edges source u)) ->
  exists b d,
    returned (bellmanFord V edges source (call d0)) = Some (b, d) /\
    valid_input V (List.filter (endpoints_ok V) edges) source = true /\
    returned (bellmanFord V (List.filter (endpoints_ok V) edges) source (call d0))
    = Some (b, d).
Proof.
  intros HV Hs He.
  assert (valid_input V (List.filter (endpoints_ok V) edges) source = true) as Hv.
  { unfold valid_input. rewrite !andb_true_iff, forallb_forall.
    rewrite Z.ltb_lt, Z.leb_le, Z.ltb_lt. repeat split; try lia.
    intros e Hin. apply filter_In in Hin. tauto. }
  eexists. eexists. split; [rewrite (bellmanFord_run_inv V edges source d0 HV Hs He);
                            reflexivity|].
  split; [exact Hv|].
  rewrite (bellmanFord_returned _ _ _ _ Hv). unfold final_dist.
  rewrite (relax_rounds_filter V _ edges _ (length_init_dist V source)).
  rewrite existsb_filter; [reflexivity|].
  rewrite length_relax_rounds. apply length_init_dist.
Qed.

(** The loop reaches an access outside the vector when some edge has its
    tail outside it; no round or check begins meanwhile. *)
Lemma for_each_bad_tail es m :
  (exists u v w, In (u, v, w) es /\ ~ in_vec (dist m) u) ->
  exists m', for_each es relax m = Fault out_of_bounds m' /\
             rounds (trace m') = rounds (trace m) /\
             checks (trace m') = checks (trace m).
Proof.
  revert m. induction es as [|e es IH]; intros m (u & v & w & Hin & Hbad);
    [destruct Hin|].
  destruct e as [[u0 v0] w0]. cbn [for_each]. unfold bind.
  rewrite relax_spec. cbn zeta.
  assert (forall l, rounds (l ++ [visit (u0, v0, w0)]) = rounds l /\
                    checks (l ++ [visit (u0, v0, w0)]) = checks l) as Hcount
    by (intros l; rewrite rounds_app, checks_app; simpl; lia).
  destruct (index (dist m) u0) as [du|] eqn:Hu0.
  - assert (In (u, v, w) es) as Hin'.
    { destruct Hin as [Heq|Hin]; [|exact Hin]. injection Heq as -> -> ->.
      exfalso. apply Hbad. eapply index_Some. exact Hu0. }
    destruct (du =? INF).
    + destruct (IH (Machine (dist m) (trace m ++ [visit (u0, v0, w0)])))
        as (m' & Hrun & Hr & Hc); [exists u, v, w; auto|].
      exists m'. cbn [dist trace] in *. rewrite Hrun.
      destruct (Hcount (trace m)). repeat split; congruence.
    + destruct (index (dist m) v0).
      * destruct (IH (Machine (relax_edge (dist m) (u0, v0, w0))
                              (trace m ++ [visit (u0, v0, w0)])))
          as (m' & Hrun & Hr & Hc).
        { exists u, v, w. split; [exact Hin'|]. cbn [dist]. unfold in_vec in *.
          rewrite length_relax_edge. exact Hbad. }
        exists m'. cbn [dist trace] in *. rewrite Hrun.
        destruct (Hcount (trace m)). repeat split; congruence.
      * eexists. split; [reflexivity|]. cbn [trace]. apply Hcount.
  - eexists. split; [reflexivity|]. cbn [trace]. apply Hcount.
Qed.

(** X9. The edges are never validated: with at least two vertices and a
    valid source, an edge whose tail is outside [0, V) makes the call read
    outside the vector (the access the model marks [out_of_bounds]) during
    the first relaxation round, before the verification pass has begun. *)
Theorem bad_tail_faults V edges source d0 u v w :
  2 <= V -> 0 <= source < V ->
  In (u, v, w) edges -> u < 0 \/ V <= u ->
  exists m,
    bellmanFord V edges source (call d0) = Fault out_of_bounds m /\
    rounds (trace m) = 1%nat /\ checks (trace m) = 0%nat.
Proof.
  intros HV Hs Hin Hu.
  unfold bellmanFord. unfold bind at 1. unfold vec_assign.
  destruct (decide (V < 0)); [lia|].
  unfold bind at 1. unfold vec_set. cbn [dist set_dist call trace].
  destruct (index_in_vec (replicate (Z.to_nat V) INF) source) as [x Hx].
  { unfold in_vec. rewrite length_replicate. lia. }
  rewrite Hx. fold (init_dist V source).
  destruct (Z.to_nat (V - 1)) as [|k] eqn:Hk; [lia|].
  unfold bind at 1. cbn [repeat_loop]. unfold bind at 1. unfold bind at 1.
  unfold emit. cbn [dist trace app set_dist call].
  destruct (for_each_bad_tail edges (Machine (init_dist V source) [round_begin]))
    as (m' & Hrun & Hr & Hc).
  { exists u, v, w. split; [exact Hin|]. cbn [dist]. unfold in_vec.
    rewrite length_init_dist. lia. }
  rewrite Hrun. exists m'. split; [reflexivity|]. cbn [trace rounds checks] in *.
  split; assumption.
Qed.

(** The loop reaches an access outside the vector when an edge that leaves
    a vertex already below the sentinel points outside it. *)
Lemma for_each_bad_head es m s ds :
  index (dist m) s = Some ds -> ds < INF ->
  (exists v w, In (s, v, w) es /\ ~ in_vec (dist m) v) ->
  exists m', for_each es relax m = Fault out_of_bounds m' /\
             rounds (trace m') = rounds (trace m) /\
             checks (trace m') = checks (trace m).
Proof.
  revert m ds. induction es as [|e es IH]; intros m ds Hs Hlt (v & w & Hin & Hbad);
    [destruct Hin|].
  destruct e as [[u0 v0] w0]. cbn [for_each]. unfold bind.
  rewrite relax_spec. cbn zeta.
  assert (forall l, rounds (l ++ [visit (u0, v0, w0)]) = rounds l /\
                    checks (l ++ [visit (u0, v0, w0)]) = checks l) as Hcount
    by (intros l; rewrite rounds_app, checks_app; simpl; lia).
  destruct (index (dist m) u0) as [du|] eqn:Hu0;
    [|eexists; split; [reflexivity|cbn [trace]; apply Hcount]].
  destruct (du =? INF) eqn:Hinf.
  - assert (In (s, v, w) es) as Hin'.
    { destruct Hin as [Heq|Hin]; [|exact Hin]. injection Heq as -> -> ->.
      rewrite Hs in Hu0. injection Hu0 as <-. apply Z.eqb_eq in Hinf. lia. }
    destruct (IH (Machine (dist m) (trace m ++ [visit (u0, v0, w0)])) ds Hs Hlt)
      as (m' & Hrun & Hr & Hc); [exists v, w; auto|].
    exists m'. cbn [dist trace] in *. rewrite Hrun.
    destruct (Hcount (trace m)). repeat split; congruence.
  - destruct (index (dist m) v0) as [dv0|] eqn:Hv0;
      [|eexists; split; [reflexivity|cbn [trace]; apply Hcount]].
    assert (In (s, v, w) es) as Hin'.
    { destruct Hin as [Heq|Hin]; [|exact Hin]. injection Heq as -> -> ->.
      exfalso. apply Hbad. eapply index_Some. exact Hv0. }
    destruct (relax_edge_mono (dist m) (u0, v0, w0) s ds Hs) as (ds' & Hs' & Hle).
    destruct (IH (Machine (relax_edge (dist m) (u0, v0, w0))
                          (trace m ++ [visit (u0, v0, w0)])) ds' Hs' ltac:(lia))
      as (m' & Hrun & Hr & Hc).
    { exists v, w. split; [exact Hin'|]. cbn [dist]. unfold in_vec in *.
      rewrite length_relax_edge. exact Hbad. }
    exists m'. cbn [dist trace] in *. rewrite Hrun.
    destruct (Hcount (trace m)). repeat split; congruence.
Qed.

(** X10. With at least two vertices and a valid source, an edge that leaves
    the source and points outside [0, V) makes the call read outside the
    vector (the access the model marks [out_of_bounds]) during the first
    relaxation round, before the verification pass has begun: the source is
    never at the sentinel, so the test goes on to [dist[v]]. *)
Theorem bad_head_at_source_faults V edges source d0 v w :
  2 <= V -> 0 <= source < V ->
  In (source, v, w) edges -> v < 0 \/ V <= v ->
  exists m,
    bellmanFord V edges source (call d0) = Fault out_of_bounds m /\
    rounds (trace m) = 1%nat /\ checks (trace m) = 0%nat.
Proof.
  intros HV Hs Hin Hv.
  unfold bellmanFord. unfold bind at 1. unfold vec_assign.
  destruct (decide (V < 0)); [lia|].
  unfold bind at 1. unfold vec_set. cbn [dist set_dist call trace].
  destruct (index_in_vec (replicate (Z.to_nat V) INF) source) as [x Hx].
  { unfold in_vec. rewrite length_replicate. lia. }
  rewrite Hx. fold (init_dist V source).
  destruct (Z.to_nat (V - 1)) as [|k] eqn:Hk; [lia|].
  unfold bind at 1. cbn [repeat_loop]. unfold bind at 1. unfold bind at 1.
  unfold emit. cbn [dist trace app set_dist call].
  destruct (for_each_bad_head edges (Machine (init_dist V source) [round_begin])
              source 0) as (m' & Hrun & Hr & Hc).
  - cbn [dist]. rewrite index_init_dist by lia.
    destruct (decide (source = source)); congruence.
  - unfold INF. lia.
  - exists v, w. split; [exact Hin|]. cbn [dist]. unfold in_vec.
    rewrite length_init_dist. lia.
  - rewrite Hrun. exists m'. split; [reflexivity|]. cbn [trace rounds checks] in *.
    split; assumption.
Qed.

(** ** The callers *)

Lemma append_assoc (a b c : string) : ((a ++ b) ++ c = a ++ (b ++ c))%string.
Proof. induction a as [|ch a IH]; simpl; [reflexivity|]. rewrite IH. reflexivity. Qed.

Lemma append_nil_r (a : string) : (a ++ EmptyString = a)%string.
Proof. induction a as [|ch a IH]; simpl; [reflexivity|]. rewrite IH. reflexivity. Qed.

Lemma append_inv_head (a b c : string) : (a ++ b = a ++ c)%string -> b = c.
Proof.
  induction a as [|ch a IH]; simpl; [auto|]. intros H. injection H as H. auto.
Qed.

Lemma vec_eqb_eq a b : vec_eqb a b = true <-> a = b.
Proof.
  revert b. induction a as [|x a IH]; intros [|y b]; simpl; split; try easy.
  - rewrite andb_true_iff, Z.eqb_eq, IH. intros [-> ->]. reflexivity.
  - intros H. injection H as -> ->. rewrite Z.eqb_refl. apply IH. reflexivity.
Qed.

(** A number never prints as the text of the sentinel. *)
Lemma show_int_head n : exists ch s, show_int n = String ch s /\ ch <> "I"%char.
Proof.
  unfold show_int. destruct n as [|p|p]; simpl.
  - eexists. eexists. split; [reflexivity|discriminate].
  - destruct (Pos.to_uint p); simpl;
      (eexists; eexists; split; [reflexivity|discriminate]).
  - eexists. eexists. split; [reflexivity|discriminate].
Qed.

Lemma vertex_line_sentinel i x : vertex_line i x = vertex_line i INF <-> x = INF.
Proof.
  split; [|intros ->; reflexivity].
  intros H. destruct (Z.eq_dec x INF) as [|Hne]; [assumption|]. exfalso.
  unfold vertex_line in H. rewrite Z.eqb_refl in H.
  apply Z.eqb_neq in Hne. rewrite Hne in H.
  do 3 apply append_inv_head in H.
  destruct (show_int_head x) as (ch & s & Hs & Hch). rewrite Hs in H.
  simpl in H. injection H as H _. contradiction.
Qed.

(** The loop prints one line per entry when it runs over the whole vector. *)
Lemma print_vertices_run l : forall pre out,
  print_vertices (length l) (Z.of_nat (length pre)) (pre ++ l) out =
  Finished tt (out ++ vertex_lines (Z.of_nat (length pre)) l)%string.
Proof.
  induction l as [|x l IH]; intros pre out.
  - simpl. unfold io_ret. rewrite append_nil_r. reflexivity.
  - assert (index (pre ++ x :: l) (Z.of_nat (length pre)) = Some x) as Hx.
    { rewrite index_lookup. rewrite lookup_app_r by lia.
      rewrite Nat.sub_diag. reflexivity. }
    cbn [length print_vertices vertex_lines].
    unfold io_bind, print, vec_at. rewrite Hx.
    replace (Z.of_nat (length pre) + 1) with (Z.of_nat (length (pre ++ [x])))
      by (rewrite length_app; simpl; lia).
    assert (pre ++ x :: l = (pre ++ [x]) ++ l) as Hl
      by (rewrite <- app_assoc; reflexivity).
    unfold vertex_line. destruct (x =? INF).
    + rewrite Hl. rewrite IH. rewrite !append_assoc. reflexivity.
    + rewrite Hl. rewrite IH. rewrite !append_assoc. reflexivity.
Qed.

(** The loop reads past the end of a vector shorter than [V]. *)
Lemma print_vertices_short l : forall pre out n,
  (length l < n)%nat ->
  print_vertices n (Z.of_nat (length pre)) (pre ++ l) out =
  Crashed out_of_bounds
    (out ++ vertex_lines (Z.of_nat (length pre)) l
         ++ "Vertex " ++ show_int (Z.of_nat (length (pre ++ l))) ++ ": ")%string.
Proof.
  induction l as [|x l IH]; intros pre out n Hn.
  - destruct n as [|n]; [simpl in Hn; lia|].
    cbn [print_vertices vertex_lines]. unfold io_bind, print, vec_at.
    rewrite app_nil_r. rewrite index_lookup, lookup_ge_None_2 by lia.
    rewrite !append_assoc. reflexivity.
  - destruct n as [|n]; [simpl in Hn; lia|]. simpl in Hn.
    assert (index (pre ++ x :: l) (Z.of_nat (length pre)) = Some x) as Hx.
    { rewrite index_lookup. rewrite lookup_app_r by lia.
      rewrite Nat.sub_diag. reflexivity. }
    cbn [print_vertices vertex_lines].
    unfold io_bind, print, vec_at. rewrite Hx.
    replace (Z.of_nat (length pre) + 1) with (Z.of_nat (length (pre ++ [x])))
      by (rewrite length_app; simpl; lia).
    assert (pre ++ x :: l = (pre ++ [x]) ++ l) as Hl
      by (rewrite <- app_assoc; reflexivity).
    unfold vertex_line. destruct (x =? INF).
    + rewrite Hl. rewrite IH by lia. rewrite !append_assoc. reflexivity.
    + rewrite Hl. rewrite IH by lia. rewrite !append_assoc. reflexivity.
Qed.

(** X11. What [report] prints for a vector of exactly V entries, and where it
    stops for a shorter one. *)
Theorem report_output V source d out :
  (Z.of_nat (length d) = V ->
   report false V source d out =
   Finished tt (out ++ "Shortest distances from source " ++ show_int source
                    ++ ":" ++ endl ++ vertex_lines 0 d)%string) /\
  (Z.of_nat (length d) < V ->
   report false V source d out =
   Crashed out_of_bounds
     (out ++ "Shortest distances from source " ++ show_int source
          ++ ":" ++ endl ++ vertex_lines 0 d
          ++ "Vertex " ++ show_int (Z.of_nat (length d)) ++ ": ")%string) /\
  report true V source d out =
  Finished tt (out ++ "Negative cycle detected!" ++ endl)%string.
Proof.
  split; [|split].
  - intros Hl. unfold report, io_bind, print.
    replace (Z.to_nat V) with (length d) by lia.
    rewrite (print_vertices_run d []). rewrite !append_assoc. reflexivity.
  - intros Hl. unfold report, io_bind, print.
    rewrite (print_vertices_short d [] _ (Z.to_nat V)) by lia.
    rewrite !append_assoc. reflexivity.
  - unfold report, io_bind, print. rewrite !append_assoc. reflexivity.
Qed.

(** X12. The sample on any valid input: it never runs out of the vector; it
    prints the one line of the negative cycle or the header and one line per
    vertex; and with small weights the lines that read INF are exactly those
    of the vertices that cannot be reached from the source. *)
Theorem sample_output V edges source out :
  valid_input V edges source = true ->
  exists b d,
    returned (bellmanFord V edges source (call [])) = Some (b, d) /\
    sample V edges source out =
    Finished tt
      (out ++ if b then "Negative cycle detected!" ++ endl
              else "Shortest distances from source " ++ show_int source
                   ++ ":" ++ endl ++ vertex_lines 0 d)%string /\
    (small_weights V edges = true -> b = false ->
     forall x dx, index d x = Some dx ->
       (vertex_line x dx = vertex_line x INF <-> ~ reachable edges source x)).
Proof.
  intros Hv. pose proof Hv as Hv'. apply valid_input_spec in Hv' as (HV & Hs & He).
  eexists. eexists. split; [apply bellmanFord_returned; exact Hv|]. split.
  - unfold sample, io_bind, call_bellmanFord.
    rewrite (bellmanFord_run _ _ _ _ Hv). cbn [fst snd dist].
    destruct (existsb (improving (final_dist V edges source)) edges).
    + apply report_output.
    + apply report_output. rewrite length_final_dist. lia.
  - intros Hsm Hb x dx Hx. rewrite vertex_line_sentinel.
    pose proof (index_Some _ _ _ Hx) as Hin. unfold in_vec in Hin.
    rewrite length_final_dist in Hin.
    destruct (undetected_distances_shortest V edges source [] _ x Hv Hsm
                ltac:(rewrite (bellmanFord_returned _ _ _ _ Hv), Hb; reflexivity)
                ltac:(lia)) as [Hreach Hun].
    split.
    + intros -> Hr. destruct (Hreach Hr) as (dx & p & H1 & H2 & _).
      rewrite Hx in H1. injection H1 as <-. lia.
    + intros Hnr. specialize (Hun Hnr). rewrite Hx in Hun. injection Hun as ->.
      reflexivity.
Qed.

(** X13. The program as a whole: every assertion of [testBellmanFord] holds on
    the embedding, nothing is printed by the tests, the sample prints the
    distances of test case 1, and [main] returns 0. *)
Theorem main_output :
  (forall out, testBellmanFord out = Finished tt out) /\
  main EmptyString =
  Finished 0
    ("Shortest distances from source 0:" ++ endl
     ++ "Vertex 0: 0" ++ endl ++ "Vertex 1: -1" ++ endl
     ++ "Vertex 2: 2" ++ endl ++ "Vertex 3: -2" ++ endl
     ++ "Vertex 4: 1" ++ endl)%string.
Proof. split; [intros out|]; vm_compute; reflexivity. Qed.

(** ** Instances *)

Lemma bad_head_walks p x : walk edges_bad_head 0 p x -> x = 0 \/ x = 1.
Proof.
  intros H. induction H as [|p u v w H IH Hin]; [left; reflexivity|].
  simpl in Hin. destruct Hin as [Heq|[Heq|[]]]; injection Heq as <- <- <-; lia.
Qed.

Lemma undetected_distances_shortest_witness :
  valid_input 5 edges_test1 0 = true /\ small_weights 5 edges_test1 = true /\
  returned (bellmanFord 5 edges_test1 0 (call [])) = Some (false, [0; -1; 2; -2; 1]) /\
  0 <= 3 < 5 /\
  (reachable edges_test1 0 3 ->
   exists dx p, index [0; -1; 2; -2; 1] 3 = Some dx /\ dx < INF /\
                walk edges_test1 0 p 3 /\ weight p = dx /\
                forall q, walk edges_test1 0 q 3 -> dx <= weight q) /\
  (~ reachable edges_test1 0 3 -> index [0; -1; 2; -2; 1] 3 = Some INF).
Proof.
  split; [reflexivity|]. split; [reflexivity|].
  split; [vm_compute; reflexivity|]. split; [lia|].
  apply (undetected_distances_shortest 5 edges_test1 0 [] [0; -1; 2; -2; 1] 3).
  - reflexivity.
  - reflexivity.
  - vm_compute. reflexivity.
  - lia.
Defined.

Lemma undetected_source_zero_witness :
  valid_input 7 edges_test6 0 = true /\ small_weights 7 edges_test6 = true /\
  returned (bellmanFord 7 edges_test6 0 (call [])) =
    Some (false, [0; 1; 2; 4; 6; 9; 8]) /\
  index [0; 1; 2; 4; 6; 9; 8] 0 = Some 0.
Proof.
  split; [reflexivity|]. split; [reflexivity|].
  split; [vm_compute; reflexivity|].
  apply (undetected_source_zero 7 edges_test6 0 [] [0; 1; 2; 4; 6; 9; 8]).
  - reflexivity.
  - reflexivity.
  - vm_compute. reflexivity.
Defined.

Lemma returned_vector_shape_witness :
  valid_input 3 edges_test2 0 = true /\
  exists b d,
    returned (bellmanFord 3 edges_test2 0 (call [])) = Some (b, d) /\
    Z.of_nat (length d) = 3 /\
    (forall x dx, index d x = Some dx -> INT_MIN <= dx <= INF) /\
    (exists ds, index d 0 = Some ds /\ ds <= 0).
Proof.
  split; [reflexivity|].
  apply (returned_vector_shape 3 edges_test2 0 []). reflexivity.
Defined.

Lemma flag_false_iff_stable_witness :
  valid_input 5 edges_test1 0 = true /\
  exists b d,
    returned (bellmanFord 5 edges_test1 0 (call [])) = Some (b, d) /\
    (b = false <-> relax_pass edges_test1 d = d) /\
    (b = false -> forall n, relax_rounds n edges_test1 d = d).
Proof.
  split; [reflexivity|].
  apply (flag_false_iff_stable 5 edges_test1 0 []). reflexivity.
Defined.

Lemma entries_are_walk_weights_witness :
  valid_input 3 edges_test2 0 = true /\ small_weights 3 edges_test2 = true /\
  exists b d,
    returned (bellmanFord 3 edges_test2 0 (call [])) = Some (b, d) /\
    (forall x dx, index d x = Some dx -> dx <> INF ->
       exists p, walk edges_test2 0 p x /\ weight p = dx /\
                 (length p <= Z.to_nat (3 - 1) * length edges_test2)%nat) /\
    (forall p x, walk edges_test2 0 p x -> Z.of_nat (length p) <= 3 - 1 ->
       exists dx, index d x = Some dx /\ dx <= weight p).
Proof.
  split; [reflexivity|]. split; [reflexivity|].
  apply (entries_are_walk_weights 3 edges_test2 0 []); reflexivity.
Defined.

Lemma no_edges_result_witness :
  0 < 3 /\ 0 <= 1 < 3 /\
  returned (bellmanFord 3 [] 1 (call [])) = Some (false, init_dist 3 1) /\
  forall x, 0 <= x < 3 ->
    index (init_dist 3 1) x = Some (if decide (x = 1) then 0 else INF).
Proof.
  split; [lia|]. split; [lia|]. apply (no_edges_result 3 1 []); lia.
Defined.

Lemma edge_order_irrelevant_witness :
  valid_input 3 edges_test4 0 = true /\
  small_weights 3 edges_test4 = true /\
  small_weights 3 edges_test4_shuffled = true /\
  (forall e, In e edges_test4 <-> In e edges_test4_shuffled) /\
  exists b d d',
    returned (bellmanFord 3 edges_test4 0 (call [])) = Some (b, d) /\
    returned (bellmanFord 3 edges_test4_shuffled 0 (call [])) = Some (b, d') /\
    (b = false -> d = d').
Proof.
  assert (forall e, In e edges_test4 <-> In e edges_test4_shuffled) as Hsame
    by (intros e; simpl; tauto).
  split; [reflexivity|]. split; [reflexivity|]. split; [reflexivity|].
  split; [exact Hsame|].
  apply (edge_order_irrelevant 3 edges_test4 edges_test4_shuffled 0 []).
  - reflexivity.
  - reflexivity.
  - reflexivity.
  - exact Hsame.
Defined.

Lemma unreachable_tails_shield_bad_heads_witness :
  0 < 3 /\ 0 <= 0 < 3 /\
  (forall u v w, In (u, v, w) edges_bad_head ->
     0 <= u < 3 /\ (0 <= v < 3 \/ ~ reachable edges_bad_head 0 u)) /\
  exists b d,
    returned (bellmanFord 3 edges_bad_head 0 (call [])) = Some (b, d) /\
    valid_input 3 (List.filter (endpoints_ok 3) edges_bad_head) 0 = true /\
    returned (bellmanFord 3 (List.filter (endpoints_ok 3) edges_bad_head) 0 (call []))
    = Some (b, d).
Proof.
  assert (forall u v w, In (u, v, w) edges_bad_head ->
            0 <= u < 3 /\ (0 <= v < 3 \/ ~ reachable edges_bad_head 0 u)) as He.
  { intros u v w [Heq|[Heq|[]]]; injection Heq as <- <- <-.
    - split; [lia|]. left. lia.
    - split; [lia|]. right. intros [p Hp]. apply bad_head_walks in Hp. lia. }
  split; [lia|]. split; [lia|]. split; [exact He|].
  apply (unreachable_tails_shield_bad_heads 3 edges_bad_head 0 []); [lia|lia|exact He].
Defined.

Lemma bad_tail_faults_witness :
  2 <= 2 /\ 0 <= 0 < 2 /\ In (5, 0, 1) edges_bad_tail /\ (5 < 0 \/ 2 <= 5) /\
  exists m,
    bellmanFord 2 edges_bad_tail 0 (call []) = Fault out_of_bounds m /\
    rounds (trace m) = 1%nat /\ checks (trace m) = 0%nat.
Proof.
  split; [lia|]. split; [lia|]. split; [right; left; reflexivity|].
  split; [right; lia|].
  apply (bad_tail_faults 2 edges_bad_tail 0 [] 5 0 1);
    [lia|lia|right; left; reflexivity|right; lia].
Defined.

Lemma bad_head_at_source_faults_witness :
  2 <= 2 /\ 0 <= 0 < 2 /\ In (0, 9, 1) edges_source_out /\ (9 < 0 \/ 2 <= 9) /\
  exists m,
    bellmanFord 2 edges_source_out 0 (call []) = Fault out_of_bounds m /\
    rounds (trace m) = 1%nat /\ checks (trace m) = 0%nat.
Proof.
  split; [lia|]. split; [lia|]. split; [right; left; reflexivity|].
  split; [right; lia|].
  apply (bad_head_at_source_faults 2 edges_source_out 0 [] 9 1);
    [lia|lia|right; left; reflexivity|right; lia].
Defined.

Lemma report_output_witness :
  (Z.of_nat (length [0; INF]) = 2 /\
   report false 2 0 [0; INF] EmptyString =
   Finished tt ("Shortest distances from source 0:" ++ endl
                ++ "Vertex 0: 0" ++ endl ++ "Vertex 1: INF" ++ endl)%string) /\
  (Z.of_nat (length [0]) < 2 /\
   report false 2 0 [0] EmptyString =
   Crashed out_of_bounds
     ("Shortest distances from source 0:" ++ endl
      ++ "Vertex 0: 0" ++ endl ++ "Vertex 1: ")%string).
Proof.
  split.
  - split; [reflexivity|].
    apply (proj1 (report_output 2 0 [0; INF] EmptyString)). reflexivity.
  - split; [simpl; lia|].
    apply (proj1 (proj2 (report_output 2 0 [0] EmptyString))). simpl. lia.
Defined.

Lemma sample_output_witness :
  valid_input 4 edges_test3 0 = true /\
  exists b d,
    returned (bellmanFord 4 edges_test3 0 (call [])) = Some (b, d) /\
    sample 4 edges_test3 0 EmptyString =
    Finished tt
      (EmptyString ++ if b then "Negative cycle detected!" ++ endl
                      else "Shortest distances from source " ++ show_int 0
                           ++ ":" ++ endl ++ vertex_lines 0 d)%string /\
    (small_weights 4 edges_test3 = true -> b = false ->
     forall x dx, index d x = Some dx ->
       (vertex_line x dx = vertex_line x INF <-> ~ reachable edges_test3 0 x)).
Proof.
  split; [reflexivity|].
  apply (sample_output 4 edges_test3 0 EmptyString). reflexivity.
Defined.
